(** * Minesweeper: the knowledge-base player of [minesweeper.py]

    A shallow embedding of the three classes of [minesweeper.py]
    ([Minesweeper], [Sentence], [MinesweeperAI]) and the properties of the
    inference engine that follow from the code.

    Conventions.
    - A Python [int] is a [Z]; a cell [(i, j)] is a pair of [Z].
    - A Python [set] of cells is a [gset Cell]; [for x in s] visits
      [elements s]. Python leaves the order open; the proofs use only that
      [elements s] lists the members of [s].
    - [Sentence] objects are mutable and shared between [self.knowledge]
      and the snapshots [self.knowledge.copy()], so they live in a store
      ([heap]) and [knowledge] is a list of references into it.
    - A method that can raise returns a [result]; [print] is not modelled. *)

From stdpp Require Import gmap.

#[local] Set Warnings "-clear-no-such-hyp".

Open Scope Z_scope.

(** ** Python values and control *)

Definition Cell : Type := Z * Z.

(** The outcome of a method call: a value, or the exception that ended it.
    [OutOfFuel] is not a Python exception: the [while] loops are run on a
    step budget, and [OutOfFuel] says the budget was too small
    ([add_knowledge_fuel]: it never is). *)
Inductive result (A : Type) : Type :=
  | Ok (a : A)
  | IndexError
  | ValueError
  | OutOfFuel.
Arguments Ok {A} a.
Arguments IndexError {A}.
Arguments ValueError {A}.
Arguments OutOfFuel {A}.

Definition result_bind {A B} (f : A → result B) (m : result A) : result B :=
  match m with
  | Ok a => f a
  | IndexError => IndexError
  | ValueError => ValueError
  | OutOfFuel => OutOfFuel
  end.

#[global] Instance result_ret : MRet result := @Ok.
#[global] Instance result_mbind : MBind result := @result_bind.

(** [range(a, b)] *)
Definition range (a b : Z) : list Z := seqZ a (b - a).

(** [l[i]] with Python's negative indices. *)
Definition py_index {A} (l : list A) (i : Z) : result A :=
  let n := Z.of_nat (length l) in
  if decide (0 ≤ i) then
    match l !! Z.to_nat i with Some x => Ok x | None => IndexError end
  else if decide (0 ≤ n + i) then
    match l !! Z.to_nat (n + i) with Some x => Ok x | None => IndexError end
  else IndexError.

(** [for x in l: <body>] where the body may [return]. *)
Fixpoint for_return {A B} (l : list A) (body : A → option B) : option B :=
  match l with
  | [] => None
  | x :: l' =>
      match body x with
      | Some r => Some r
      | None => for_return l' body
      end
  end.

(** ** class Minesweeper (the board) *)

Module Minesweeper.

Record t : Type := mk {
  height : Z;
  width : Z;
  board : list (list bool)
}.

(** [__init__] leaves [height] rows of [width] cells. *)
Definition wf (g : t) : Prop :=
  0 ≤ height g ∧ 0 ≤ width g ∧
  length (board g) = Z.to_nat (height g) ∧
  Forall (λ row, length row = Z.to_nat (width g)) (board g).

Definition is_mine (g : t) (cell : Cell) : result bool :=
  row ← py_index (board g) cell.1;
  py_index row cell.2.

Definition in_bounds (g : t) (c : Cell) : bool :=
  bool_decide (0 ≤ c.1 < height g) && bool_decide (0 ≤ c.2 < width g).

(** The 3x3 block around [cell], in the order the two [for] loops visit. *)
Definition block (cell : Cell) : list Cell :=
  i ← range (cell.1 - 1) (cell.1 + 2);
  j ← range (cell.2 - 1) (cell.2 + 2);
  [(i, j)].

Definition nearby_step (g : t) (cell : Cell) (acc : result Z) (ij : Cell)
  : result Z :=
  count ← acc;
  if decide (ij = cell) then Ok count
  else if in_bounds g ij then
    b ← is_mine g ij;
    Ok (if b : bool then count + 1 else count)
  else Ok count.

Definition nearby_mines (g : t) (cell : Cell) : result Z :=
  foldl (nearby_step g cell) (Ok 0) (block cell).

End Minesweeper.

(** ** class Sentence *)

Module Sentence.

Record t : Type := mk {
  cells : gset Cell;
  count : Z
}.

(** [__eq__] *)
Definition eq (a b : t) : bool :=
  bool_decide (cells a = cells b) && bool_decide (count a = count b).

Definition known_mines (s : t) : gset Cell :=
  if decide (Z.of_nat (size (cells s)) = count s) then cells s else ∅.

Definition known_safes (s : t) : gset Cell :=
  if decide (count s = 0) then cells s else ∅.

Definition mark_mine (cell : Cell) (s : t) : t :=
  if decide (cell ∈ cells s)
  then mk (cells s ∖ {[cell]}) (count s - 1)
  else s.

Definition mark_safe (cell : Cell) (s : t) : t :=
  if decide (cell ∈ cells s)
  then mk (cells s ∖ {[cell]}) (count s)
  else s.

(** The value of a reference that points to no object; never read in a
    well-formed store. *)
Definition dummy : t := mk ∅ 0.

End Sentence.

#[global] Instance sentence_eq_dec : EqDecision Sentence.t.
Proof. solve_decision. Defined.

(** ** class MinesweeperAI *)

Module MinesweeperAI.

(** A reference to a [Sentence] object: its index in the store. *)
Abbreviation ref := nat.

Record t : Type := mk {
  height : Z;
  width : Z;
  moves_made : gset Cell;
  mines : gset Cell;
  safes : gset Cell;
  knowledge : list ref;
  heap : list Sentence.t
}.

(** [MinesweeperAI(height, width)] *)
Definition init (h w : Z) : t := mk h w ∅ ∅ ∅ [] [].

Definition set_moves_made (x : gset Cell) (st : t) : t :=
  mk (height st) (width st) x (mines st) (safes st) (knowledge st) (heap st).
Definition set_mines (x : gset Cell) (st : t) : t :=
  mk (height st) (width st) (moves_made st) x (safes st) (knowledge st) (heap st).
Definition set_safes (x : gset Cell) (st : t) : t :=
  mk (height st) (width st) (moves_made st) (mines st) x (knowledge st) (heap st).
Definition set_knowledge (x : list ref) (st : t) : t :=
  mk (height st) (width st) (moves_made st) (mines st) (safes st) x (heap st).
Definition set_heap (x : list Sentence.t) (st : t) : t :=
  mk (height st) (width st) (moves_made st) (mines st) (safes st) (knowledge st) x.

(** The object a reference points to. *)
Definition deref (st : t) (r : ref) : Sentence.t :=
  default Sentence.dummy (heap st !! r).

(** [for sentence in refs: sentence.f()] *)
Definition update_all (f : Sentence.t → Sentence.t) (refs : list ref)
    (h : list Sentence.t) : list Sentence.t :=
  foldl (λ h r, alter f r h) h refs.

Definition mark_mine (cell : Cell) (st : t) : t :=
  let st := set_mines ({[cell]} ∪ mines st) st in
  set_heap (update_all (Sentence.mark_mine cell) (knowledge st) (heap st)) st.

Definition mark_safe (cell : Cell) (st : t) : t :=
  let st := set_safes ({[cell]} ∪ safes st) st in
  set_heap (update_all (Sentence.mark_safe cell) (knowledge st) (heap st)) st.

(** [Sentence(cells, count)] followed by [self.knowledge.append(...)]:
    the new object gets the next free reference. *)
Definition append_new (s : Sentence.t) (st : t) : t :=
  let r := length (heap st) in
  set_knowledge (knowledge st ++ [r]) (set_heap (heap st ++ [s]) st).

(** [self.knowledge.remove(x)]: drops the first element that is [x] or
    compares equal to it; [ValueError] when there is none. *)
Definition same (st : t) (x r : ref) : bool :=
  bool_decide (r = x) || Sentence.eq (deref st r) (deref st x).

Definition remove (x : ref) (st : t) : result t :=
  match list_find (λ r, same st x r = true) (knowledge st) with
  | Some (q, _) => Ok (set_knowledge (delete q (knowledge st)) st)
  | None => ValueError
  end.

(** *** update_mines_and_safes_in_KB *)

(** The body of the inner loops: the sentence gets [mark_safe cell]. *)
Definition sweep_step (cell : Cell) (acc : bool * t) (sentence : ref)
  : bool * t :=
  let '(anyModifications, st) := acc in
  (if decide (cell ∈ Sentence.cells (deref st sentence))
   then true else anyModifications,
   set_heap (alter (Sentence.mark_safe cell) sentence (heap st)) st).

(** [for sentence in self.knowledge.copy(): ...] for one cell. *)
Definition sweep_cell (acc : bool * t) (cell : Cell) : bool * t :=
  foldl (sweep_step cell) acc (knowledge acc.2).

Definition update_mines_and_safes_in_KB (st : t) : bool * t :=
  let acc := foldl sweep_cell (false, st) (elements (safes st)) in
  foldl sweep_cell acc (elements (mines acc.2)).

(** *** remove_empties_and_safes_and_Mines *)

Definition non_empty (X : gset Cell) : bool := negb (bool_decide (X = ∅)).

Fixpoint remove_loop (snapshot : list ref) (anyRemovals : bool) (st : t)
  : result (bool * t) :=
  match snapshot with
  | [] => Ok (anyRemovals, st)
  | i_sentence :: rest =>
      if decide (size (Sentence.cells (deref st i_sentence)) = 0%nat) then
        st ← remove i_sentence st;
        remove_loop rest true st
      else if non_empty (Sentence.known_mines (deref st i_sentence)) then
        let confirmed := elements (Sentence.known_mines (deref st i_sentence)) in
        let st := foldl (λ st c, mark_mine c st) st confirmed in
        st ← remove i_sentence st;
        remove_loop rest true st
      else if non_empty (Sentence.known_safes (deref st i_sentence)) then
        let confirmed := elements (Sentence.known_safes (deref st i_sentence)) in
        let st := foldl (λ st c, mark_safe c st) st confirmed in
        st ← remove i_sentence st;
        remove_loop rest true st
      else remove_loop rest anyRemovals st
  end.

Definition remove_empties_and_safes_and_Mines (st : t) : result (bool * t) :=
  remove_loop (knowledge st) false st.

(** [while (self.remove_empties_and_safes_and_Mines() or
           self.update_mines_and_safes_in_KB()): pass] *)
Fixpoint saturate (fuel : nat) (st : t) : result t :=
  match fuel with
  | O => OutOfFuel
  | S fuel =>
      '(removed, st) ← remove_empties_and_safes_and_Mines st;
      if removed : bool then saturate fuel st
      else
        let '(modified, st) := update_mines_and_safes_in_KB st in
        if modified : bool then saturate fuel st else Ok st
  end.

(** A budget that the loop cannot use up: every round that goes on
    drops a sentence or a cell of a sentence. *)
Definition weight (st : t) : nat :=
  sum_list_with (λ r, S (size (Sentence.cells (deref st r)))) (knowledge st).

Definition saturation (st : t) : result t := saturate (S (weight st)) st.

(** *** add_knowledge *)

Definition in_bounds (st : t) (c : Cell) : bool :=
  bool_decide (0 ≤ c.1 < height st) && bool_decide (0 ≤ c.2 < width st).

(** The body of the neighbour scan; the accumulator is
    [(cell_neighbors, cell_count)]. *)
Definition scan_step (st : t) (cell : Cell) (acc : gset Cell * Z) (ij : Cell)
  : gset Cell * Z :=
  if decide (ij = cell) then acc
  else if in_bounds st ij then
    let nbrs := if decide ((ij ∉ mines st) ∧ (ij ∉ moves_made st))
                then {[ij]} ∪ acc.1 else acc.1 in
    let cnt := if decide (ij ∈ mines st) then acc.2 - 1 else acc.2 in
    (nbrs, cnt)
  else acc.

Definition scan (st : t) (cell : Cell) (count : Z) : gset Cell * Z :=
  foldl (scan_step st cell) (∅, count) (Minesweeper.block cell).

(** The loop variables of the pairwise comparison. *)
Record cursor : Type := mkc {
  c_st : t;
  c_i : Z;
  c_j : Z;
  c_imax : Z
}.

(** [while j < j_max: ...] *)
Fixpoint inner_loop (fuel : nat) (st : t) (i j i_max j_max : Z)
  : result cursor :=
  if decide (j < j_max) then
    match fuel with
    | O => OutOfFuel
    | S fuel =>
        if decide (i = j) then inner_loop fuel st i (j + 1) i_max j_max
        else
          ki ← py_index (knowledge st) i;
          kj ← py_index (knowledge st) j;
          if Sentence.eq (deref st ki) (deref st kj) then
            st ← remove kj st;
            inner_loop fuel st (if decide (j < i) then i - 1 else i) j
                       (i_max - 1) (j_max - 1)
          else
            let si := deref st ki in
            let sj := deref st kj in
            let st :=
              if decide (Sentence.cells sj ⊂ Sentence.cells si) then
                append_new
                  (Sentence.mk (Sentence.cells si ∖ Sentence.cells sj)
                               (Sentence.count si - Sentence.count sj)) st
              else st in
            inner_loop fuel st i (j + 1) i_max j_max
    end
  else Ok (mkc st i j i_max).

(** [while i < i_max: ...] *)
Fixpoint outer_loop (fuel : nat) (st : t) (i j i_max : Z) : result t :=
  if decide (i < i_max) then
    match fuel with
    | O => OutOfFuel
    | S fuel =>
        let j_max := Z.of_nat (length (knowledge st)) in
        c ← inner_loop (Z.to_nat (j_max - j)) st i j i_max j_max;
        outer_loop fuel (c_st c) (c_i c + 1) (c_j c) (c_imax c)
    end
  else Ok st.

(** The subset-expansion block. [i] and [j] are not assigned before the
    loops: they still hold the last values of the neighbour scan,
    [cell[0] + 1] and [cell[1] + 1]. *)
Definition expansion (cell : Cell) (st : t) : result t :=
  let i := cell.1 + 1 in
  let j := cell.2 + 1 in
  let i_max := Z.of_nat (length (knowledge st)) in
  outer_loop (Z.to_nat (i_max - i)) st i j i_max.

(** The first half of [add_knowledge]: the move is recorded, the cell is
    marked safe and the sentence about its neighbours joins the knowledge
    base. *)
Definition record_move (cell : Cell) (count : Z) (st : t) : t :=
  let st := set_moves_made ({[cell]} ∪ moves_made st) st in
  let st := mark_safe cell st in
  let '(cell_neighbors, cell_count) := scan st cell count in
  append_new (Sentence.mk cell_neighbors cell_count) st.

Definition add_knowledge (cell : Cell) (count : Z) (st : t) : result t :=
  let st := record_move cell count st in
  st ← saturation st;
  st ← expansion cell st;
  saturation st.

(** *** Move selection. Both methods only read [self]; they return the
    state they were given next to the answer ([None] is Python's [None]). *)

Definition make_safe_move (st : t) : option Cell * t :=
  (for_return (elements (safes st))
     (λ safe_move,
        if decide ((safe_move ∉ moves_made st) ∧ (safe_move ∉ mines st))
        then Some safe_move else None),
   st).

Definition make_random_move (st : t) : option Cell * t :=
  (for_return (range 0 (height st))
     (λ i, for_return (range 0 (width st))
        (λ j, let random_cell := (i, j) in
              if decide ((random_cell ∉ moves_made st) ∧ (random_cell ∉ mines st))
              then Some random_cell else None)),
   st).

(** The sentences of the knowledge base, in list order. *)
Definition live (st : t) : list Sentence.t := deref st <$> knowledge st.

End MinesweeperAI.

(** ** Properties of states and of runs *)

Import MinesweeperAI.

(** A cell the player may still pick at random. *)
Definition free (st : t) (c : Cell) : Prop :=
  (c ∉ moves_made st) ∧ (c ∉ mines st).

(** Row-major order on cells. *)
Definition row_major_lt (c d : Cell) : Prop := c.1 < d.1 ∨ (c.1 = d.1 ∧ c.2 < d.2).

(** The invariant of a constraint: [0 ≤ count ≤ |cells|]. *)
Definition count_in_range (s : Sentence.t) : Prop :=
  0 ≤ Sentence.count s ≤ Z.of_nat (size (Sentence.cells s)).

#[global] Instance count_in_range_dec s : Decision (count_in_range s).
Proof. unfold count_in_range. apply _. Defined.

(** States reached from a new player by [add_knowledge] calls with any
    arguments. *)
Inductive informed (h w : Z) : t → Prop :=
  | informed_init : informed h w (init h w)
  | informed_add st cell count st' :
      informed h w st →
      add_knowledge cell count st = Ok st' →
      informed h w st'.

(** States reached by [add_knowledge], [mark_mine] and [mark_safe] calls
    with any arguments. *)
Inductive driven (h w : Z) : t → Prop :=
  | driven_init : driven h w (init h w)
  | driven_add st cell count st' :
      driven h w st →
      add_knowledge cell count st = Ok st' →
      driven h w st'
  | driven_mark_mine st cell :
      driven h w st → driven h w (mark_mine cell st)
  | driven_mark_safe st cell :
      driven h w st → driven h w (mark_safe cell st).

(** What the game loop tells the player about a board [g]:
    [add_knowledge(cell, g.nearby_mines(cell))] for a cell that was revealed
    and is not a mine. *)
Definition observes (g : Minesweeper.t) (cell : Cell) (count : Z) : Prop :=
  Minesweeper.in_bounds g cell = true ∧
  Minesweeper.is_mine g cell = Ok false ∧
  Minesweeper.nearby_mines g cell = Ok count.

(** [cell] holds a mine of [g]. *)
Definition mined (g : Minesweeper.t) (cell : Cell) : Prop :=
  Minesweeper.is_mine g cell = Ok true.

#[global] Instance mined_dec g cell : Decision (mined g cell).
Proof. unfold mined. solve_decision. Defined.

(** Runs in which every [add_knowledge] reports an observation of [g]. *)
Inductive observed (g : Minesweeper.t) : t → Prop :=
  | observed_init :
      observed g (init (Minesweeper.height g) (Minesweeper.width g))
  | observed_add st cell count st' :
      observed g st →
      observes g cell count →
      add_knowledge cell count st = Ok st' →
      observed g st'.

(** Runs in which every call agrees with [g]: observations as above,
    [mark_mine] on mines only, [mark_safe] on mine-free cells only. *)
Inductive played (g : Minesweeper.t) : t → Prop :=
  | played_init :
      played g (init (Minesweeper.height g) (Minesweeper.width g))
  | played_add st cell count st' :
      played g st →
      observes g cell count →
      add_knowledge cell count st = Ok st' →
      played g st'
  | played_mark_mine st cell :
      played g st → mined g cell → played g (mark_mine cell st)
  | played_mark_safe st cell :
      played g st → ¬ mined g cell → played g (mark_safe cell st).

(** How many of the cells [N] hold a mine of [g]. *)
Definition mines_among (g : Minesweeper.t) (N : gset Cell) : Z :=
  Z.of_nat (size (filter (mined g) N)).

(** A constraint that says the truth about [g]. *)
Definition truthful (g : Minesweeper.t) (s : Sentence.t) : Prop :=
  Sentence.count s = mines_among g (Sentence.cells s).

(** No live constraint mentions a cell already confirmed as a mine. *)
Definition mines_cleared (st : t) : Prop :=
  ∀ r, r ∈ knowledge st → Sentence.cells (deref st r) ## mines st.

(** What the player believes is true of [g]. *)
Record sound (g : Minesweeper.t) (st : t) : Prop := {
  sound_height : height st = Minesweeper.height g;
  sound_width : width st = Minesweeper.width g;
  sound_mines : ∀ c, c ∈ mines st → mined g c;
  sound_safes : ∀ c, c ∈ safes st → ¬ mined g c;
  sound_moves : moves_made st ⊆ safes st;
  sound_heap : Forall (truthful g) (heap st);
  sound_cleared : mines_cleared st
}.

(** The sweeps of [update_mines_and_safes_in_KB] touch the store only. *)
Definition same_frame (st st' : t) : Prop :=
  height st' = height st ∧ width st' = width st ∧
  moves_made st' = moves_made st ∧ mines st' = mines st ∧
  safes st' = safes st ∧ knowledge st' = knowledge st.

(** The cells a sentence still has. *)
Definition cell_count (st : t) (r : nat) : nat :=
  size (Sentence.cells (deref st r)).

(** [len(self.knowledge)] *)
Definition size_kb (st : t) : Z := Z.of_nat (length (knowledge st)).

(** *** The examples of the specification *)

(** The 3x3 board with its only mine at (0,0). *)
Definition corner_board : Minesweeper.t :=
  Minesweeper.mk 3 3
    [[true; false; false]; [false; false; false]; [false; false; false]].

(** An 8x8 board with mines at (1,0) and (6,6). *)
Definition edge_board : Minesweeper.t :=
  Minesweeper.mk 8 8
    (replicate 8 false
       :: (true :: replicate 7 false)
       :: replicate 4 (replicate 8 false)
       ++ [replicate 6 false ++ [true; false]; replicate 8 false]).

(** [run calls st]: the [add_knowledge] calls of [calls], one after the other. *)
Fixpoint run (calls : list (Cell * Z)) (st : t) : result t :=
  match calls with
  | [] => Ok st
  | (cell, count) :: calls => st ← add_knowledge cell count st; run calls st
  end.

(** A state nobody can build with the three methods above, but that the
    methods accept: (0,0) is a confirmed mine and still in a constraint. *)
Definition stale_mine : t :=
  mk 1 2 ∅ {[(0, 0)]} ∅ [0%nat] [Sentence.mk {[(0, 0); (0, 1)]} 1].

(** *** The saturation phase as the specification words it

    "Confirmed mines must be propagated via the mine-marking operation,
    confirmed safes via the safe-marking operation", into every live
    constraint. The definitions below follow these words; they differ from
    [update_mines_and_safes_in_KB] in the operation of the second loop. The
    retiring pass and the inference step are those of the code. *)

Definition spec_sweep_step (mark : Cell → Sentence.t → Sentence.t)
    (cell : Cell) (acc : bool * t) (sentence : ref) : bool * t :=
  let '(anyModifications, st) := acc in
  (if decide (cell ∈ Sentence.cells (deref st sentence))
   then true else anyModifications,
   set_heap (alter (mark cell) sentence (heap st)) st).

Definition spec_sweep_cell (mark : Cell → Sentence.t → Sentence.t)
    (acc : bool * t) (cell : Cell) : bool * t :=
  foldl (spec_sweep_step mark cell) acc (knowledge acc.2).

Definition spec_update_mines_and_safes_in_KB (st : t) : bool * t :=
  let acc :=
    foldl (spec_sweep_cell Sentence.mark_safe) (false, st) (elements (safes st)) in
  foldl (spec_sweep_cell Sentence.mark_mine) acc (elements (mines acc.2)).





(** ** More about the player and the board *)

(** What the two loops of [add_knowledge] leave alone, and what they can
    only add to. *)
Definition keeps (st st' : t) : Prop :=
  height st' = height st ∧ width st' = width st ∧
  moves_made st' = moves_made st ∧
  mines st ⊆ mines st' ∧ safes st ⊆ safes st'.

(** The sentence at [x] gives the loop nothing to do. *)
Definition idle (st : t) (x : nat) : Prop :=
  Sentence.cells (deref st x) ≠ ∅ ∧
  Sentence.count (deref st x) ≠ 0 ∧
  Sentence.count (deref st x) ≠ Z.of_nat (size (Sentence.cells (deref st x))).

(** Where the saturation loop stops: no live sentence is empty, all mines
    or all safe, and none mentions a cell that is already known. *)
Definition settled (st : t) : Prop :=
  ∀ r, r ∈ knowledge st →
    Sentence.cells (deref st r) ≠ ∅ ∧
    Sentence.count (deref st r) ≠ 0 ∧
    Sentence.count (deref st r) ≠ Z.of_nat (size (Sentence.cells (deref st r))) ∧
    Sentence.cells (deref st r) ## safes st ∪ mines st.

(** The cells of the [h]x[w] board. *)
Definition on_board (h w : Z) (c : Cell) : Prop := 0 ≤ c.1 < h ∧ 0 ≤ c.2 < w.

#[global] Instance on_board_dec h w c : Decision (on_board h w c).
Proof. unfold on_board. apply _. Defined.

(** The cells next to [cell] on the [h]x[w] board. *)
Definition neighbours (h w : Z) (cell : Cell) : gset Cell :=
  list_to_set
    (filter (λ c, c ≠ cell ∧ on_board h w c) (Minesweeper.block cell)).

(** Everything the player talks about lies on the [h]x[w] board, except the
    moves it was told about. *)
Definition within_board (h w : Z) (st : t) : Prop :=
  height st = h ∧ width st = w ∧
  Forall (λ s, ∀ c, c ∈ Sentence.cells s → on_board h w c) (heap st) ∧
  (∀ c, c ∈ mines st → on_board h w c) ∧
  (∀ c, c ∈ safes st → on_board h w c ∨ c ∈ moves_made st).

(** ** class Minesweeper: [__init__] and [won]

    The board of [Minesweeper.t] together with the two sets of the class.
    [random.randrange] is fed from a list of draws: each draw is an
    arbitrary integer that [randrange n] reduces into [0 .. n-1], so every
    outcome of the generator is the image of some list. The list is also
    the step budget of the [while] loop. *)

Module MinesweeperGame.

Record t : Type := mk {
  grid : Minesweeper.t;
  mines : gset Cell;
  mines_found : gset Cell
}.

(** [random.randrange(n)]: [ValueError] on an empty range. *)
Definition randrange (n d : Z) : result Z :=
  if decide (0 < n) then Ok (d `mod` n) else ValueError.

(** [l[i] = x] with Python's negative indices. *)
Definition py_setitem {A} (l : list A) (i : Z) (x : A) : result (list A) :=
  let n := Z.of_nat (length l) in
  if decide (0 ≤ i) then
    if decide (i < n) then Ok (<[Z.to_nat i := x]> l) else IndexError
  else if decide (0 ≤ n + i) then Ok (<[Z.to_nat (n + i) := x]> l)
  else IndexError.

(** The two [for] loops that fill the field with [False]. *)
Definition empty_board (height width : Z) : list (list bool) :=
  (λ _, (λ _, false) <$> range 0 width) <$> range 0 height.

(** [self.mines.add((i, j)); self.board[i][j] = True] *)
Definition set_mine (i j : Z) (g : t) : result t :=
  let b := Minesweeper.board (grid g) in
  row ← py_index b i;
  row ← py_setitem row j true;
  b ← py_setitem b i row;
  Ok (mk (Minesweeper.mk (Minesweeper.height (grid g))
                         (Minesweeper.width (grid g)) b)
         ({[(i, j)]} ∪ mines g) (mines_found g)).

(** [while len(self.mines) != mines: ...] *)
Fixpoint place_mines (height width n : Z) (draws : list (Z * Z)) (g : t)
  : result t :=
  if decide (Z.of_nat (size (mines g)) = n) then Ok g
  else
    match draws with
    | [] => OutOfFuel
    | (di, dj) :: draws =>
        i ← randrange height di;
        j ← randrange width dj;
        b ← Minesweeper.is_mine (grid g) (i, j);
        if b : bool then place_mines height width n draws g
        else g ← set_mine i j g; place_mines height width n draws g
    end.

(** [Minesweeper(height, width, mines)] *)
Definition init (height width n : Z) (draws : list (Z * Z)) : result t :=
  let g := mk (Minesweeper.mk height width (empty_board height width)) ∅ ∅ in
  g ← place_mines height width n draws g;
  Ok (mk (grid g) (mines g) ∅).

Definition won (g : t) : bool := bool_decide (mines_found g = mines g).

End MinesweeperGame.

(** The board and the set of mines of a game tell the same story. *)
Definition laid (h w : Z) (g : MinesweeperGame.t) : Prop :=
  Minesweeper.height (MinesweeperGame.grid g) = h ∧
  Minesweeper.width (MinesweeperGame.grid g) = w ∧
  Minesweeper.wf (MinesweeperGame.grid g) ∧
  (∀ c, c ∈ MinesweeperGame.mines g → on_board h w c) ∧
  (∀ c, on_board h w c →
        Minesweeper.is_mine (MinesweeperGame.grid g) c
        = Ok (bool_decide (c ∈ MinesweeperGame.mines g))).

(** All cells of an [h]x[w] board, row by row. *)
Definition board_cells (h w : Z) : list Cell :=
  i ← range 0 h; j ← range 0 w; [(i, j)].

(** Every reference of the knowledge base points into the store. *)
Definition valid_refs (st : t) : Prop :=
  ∀ r, r ∈ knowledge st → (r < length (heap st))%nat.

(** [s] is what the inference step builds from two sentences of [H]. *)
Definition difference_of (H : list Sentence.t) (s : Sentence.t) : Prop :=
  ∃ a b, a ∈ H ∧ b ∈ H ∧ Sentence.cells b ⊂ Sentence.cells a ∧
         s = Sentence.mk (Sentence.cells a ∖ Sentence.cells b)
                         (Sentence.count a - Sentence.count b).

(** What the inference step started on [st] has made of it so far: the
    sets are those of [st], the store of [st] has only been extended, by
    differences, and the references are those of [st] or new ones. *)
Definition grown (st st1 : t) : Prop :=
  height st1 = height st ∧ width st1 = width st ∧
  moves_made st1 = moves_made st ∧ mines st1 = mines st ∧
  safes st1 = safes st ∧ valid_refs st1 ∧
  ∃ new, heap st1 = heap st ++ new ∧
         Forall (difference_of (heap st1)) new ∧
         ∀ r, r ∈ knowledge st1 →
              r ∈ knowledge st ∨ (length (heap st) ≤ r)%nat.

(** ** make_random_move *)

Section for_return.
Context {A B : Type}.
Implicit Types (l : list A) (body : A → option B).

Lemma for_return_None l body :
  for_return l body = None ↔ Forall (λ x, body x = None) l.
Proof.
  induction l as [|x l IH]; simpl.
  - split; [constructor | done].
  - destruct (body x) eqn:E.
    + split; [done | by inversion 1; simplify_eq].
    + rewrite IH. split; [by constructor | by inversion 1].
Qed.

Lemma for_return_Some l body r :
  for_return l body = Some r ↔
  ∃ l1 x l2, l = l1 ++ x :: l2 ∧ Forall (λ y, body y = None) l1 ∧ body x = Some r.
Proof.
  induction l as [|x l IH]; simpl.
  - split; [done | intros (l1 & y & l2 & E & _); by destruct l1].
  - destruct (body x) eqn:E.
    + split.
      * intros [= ->]. by exists [], x, l.
      * intros (l1 & y & l2 & El & Hl1 & Hy). destruct l1 as [|z l1]; simplify_eq/=.
        -- congruence.
        -- inversion Hl1; congruence.
    + rewrite IH. split.
      * intros (l1 & y & l2 & -> & Hl1 & Hy). exists (x :: l1), y, l2. by repeat constructor.
      * intros (l1 & y & l2 & El & Hl1 & Hy). destruct l1 as [|z l1]; simplify_eq/=.
        inversion Hl1; subst. by exists l1, y, l2.
Qed.
End for_return.

Lemma elem_of_range a b x : x ∈ range a b ↔ a ≤ x < b.
Proof. unfold range. rewrite elem_of_seqZ. lia. Qed.

Lemma range_split a b l1 x l2 :
  range a b = l1 ++ x :: l2 → a ≤ x < b ∧ l1 = range a x.
Proof.
  unfold range. intros E.
  assert (Hlen : seqZ a (b - a) !! length l1 = Some x).
  { rewrite E. by rewrite list_lookup_middle. }
  apply lookup_seqZ in Hlen as [Hxa Hlt]. split; [lia|].
  replace (b - a) with ((x - a) + (b - x)) in E by lia.
  rewrite seqZ_app in E by lia.
  apply app_inj_1 in E as [E _]; [done|].
  rewrite length_seqZ. lia.
Qed.

Lemma in_bounds_spec st c :
  in_bounds st c = true ↔ 0 ≤ c.1 < height st ∧ 0 ≤ c.2 < width st.
Proof. unfold in_bounds. rewrite andb_true_iff, !bool_decide_eq_true. done. Qed.

Lemma row_scan_None st i :
  for_return (range 0 (width st))
    (λ j, if decide (((i, j) ∉ moves_made st) ∧ ((i, j) ∉ mines st))
          then Some (i, j) else None) = None
  ↔ ∀ j, 0 ≤ j < width st → ¬ free st (i, j).
Proof.
  rewrite for_return_None, Forall_forall. setoid_rewrite elem_of_range.
  split; intros H j Hj; specialize (H j Hj); unfold free in *;
    by destruct (decide _).
Qed.

Lemma row_scan_Some st i c :
  for_return (range 0 (width st))
    (λ j, if decide (((i, j) ∉ moves_made st) ∧ ((i, j) ∉ mines st))
          then Some (i, j) else None) = Some c
  ↔ c.1 = i ∧ 0 ≤ c.2 < width st ∧ free st c ∧
    ∀ j, 0 ≤ j < c.2 → ¬ free st (i, j).
Proof.
  rewrite for_return_Some. split.
  - intros (l1 & j & l2 & E & Hl1 & Hj).
    apply range_split in E as [Hjb ->].
    destruct (decide _) as [Hfree|]; [|done]. simplify_eq/=.
    split_and!; try done; try lia.
    intros j' Hj'. rewrite Forall_forall in Hl1.
    specialize (Hl1 j'). rewrite elem_of_range in Hl1. specialize (Hl1 Hj').
    unfold free. by destruct (decide _).
  - destruct c as [ci cj]. simpl. intros (-> & Hb & Hfree & Hmin).
    assert (E : range 0 (width st) = range 0 cj ++ cj :: range (cj + 1) (width st)).
    { unfold range. replace (width st - 0) with ((cj - 0) + (width st - cj)) by lia.
      rewrite seqZ_app by lia. f_equal. rewrite seqZ_cons by lia. f_equal.
      - lia.
      - f_equal; lia. }
    eexists _, cj, _. split; [exact E|]. split.
    + rewrite Forall_forall. intros j' Hj'%elem_of_range.
      specialize (Hmin j' Hj'). unfold free in Hmin. by destruct (decide _).
    + unfold free in Hfree. by destruct (decide _).
Qed.

Lemma make_random_move_None st :
  (make_random_move st).1 = None ↔ ∀ c, in_bounds st c = true → ¬ free st c.
Proof.
  unfold make_random_move. simpl. rewrite for_return_None, Forall_forall.
  setoid_rewrite elem_of_range. setoid_rewrite row_scan_None.
  setoid_rewrite in_bounds_spec. split.
  - intros H [i j] [Hi Hj]. simpl in *. by apply H.
  - intros H i Hi j Hj. by apply (H (i, j)).
Qed.

Lemma make_random_move_Some st c :
  (make_random_move st).1 = Some c ↔
  in_bounds st c = true ∧ free st c ∧
  ∀ d, in_bounds st d = true → row_major_lt d c → ¬ free st d.
Proof.
  unfold make_random_move. simpl. rewrite for_return_Some. split.
  - intros (l1 & i & l2 & E & Hl1 & Hi).
    apply range_split in E as [Hib ->].
    apply row_scan_Some in Hi as (Hci & Hcj & Hfree & Hmin).
    rewrite in_bounds_spec. split_and!; try done; try lia.
    intros [di dj] [Hdi Hdj]%in_bounds_spec [Hlt | [Heq Hlt]]; simpl in *.
    + rewrite Forall_forall in Hl1. specialize (Hl1 di).
      rewrite elem_of_range in Hl1. rewrite row_scan_None in Hl1.
      apply Hl1; lia.
    + rewrite Heq, Hci. apply Hmin. lia.
  - destruct c as [ci cj]. intros ([Hi Hj]%in_bounds_spec & Hfree & Hmin). simpl in *.
    assert (E : range 0 (height st) = range 0 ci ++ ci :: range (ci + 1) (height st)).
    { unfold range. replace (height st - 0) with ((ci - 0) + (height st - ci)) by lia.
      rewrite seqZ_app by lia. f_equal. rewrite seqZ_cons by lia. f_equal.
      - lia.
      - f_equal; lia. }
    eexists _, ci, _. split; [exact E|]. split.
    + rewrite Forall_forall. intros i' Hi'%elem_of_range.
      apply row_scan_None. intros j' Hj'. apply Hmin.
      * apply in_bounds_spec. simpl. lia.
      * left. simpl. lia.
    + apply row_scan_Some. simpl.
      split; [done|]. split; [done|]. split; [done|].
      intros j' Hj'. apply Hmin.
      * apply in_bounds_spec. simpl. lia.
      * right. simpl. lia.
Qed.

(** C7. [make_random_move] returns a cell of the board that is in neither
    [moves_made] nor [mines] whenever there is one, and [None] exactly when
    [moves_made ∪ mines] covers the whole board. *)
Theorem make_random_move_exhaustion (st : t) :
  (∀ c, (make_random_move st).1 = Some c →
        in_bounds st c = true ∧ (c ∉ moves_made st) ∧ (c ∉ mines st)) ∧
  ((∃ c, in_bounds st c = true ∧ (c ∉ moves_made st) ∧ (c ∉ mines st)) →
   ∃ c, (make_random_move st).1 = Some c) ∧
  ((make_random_move st).1 = None ↔
   ∀ c, in_bounds st c = true → c ∈ moves_made st ∪ mines st).
Proof.
  split; [|split].
  - intros c (Hb & [Hm Hn] & _)%make_random_move_Some. done.
  - intros (c & Hb & Hm & Hn).
    destruct (make_random_move st).1 as [d|] eqn:E; [by exists d|].
    rewrite make_random_move_None in E. destruct (E c Hb). by split.
  - rewrite make_random_move_None. unfold free.
    split; intros H c Hb; specialize (H c Hb).
    + destruct (decide (c ∈ moves_made st)); [set_solver|].
      destruct (decide (c ∈ mines st)); [set_solver|]. destruct H; done.
    + set_solver.
Qed.

(** The move of a new 2x2 player: some cell is free, so one is returned. *)
Lemma make_random_move_exhaustion_witness :
  ∃ c, (make_random_move (init 2 2)).1 = Some c.
Proof.
  apply (make_random_move_exhaustion (init 2 2)).
  exists (1, 1). split_and!; compute_done.
Defined.

(** C10. [make_random_move] is a function of [height], [width],
    [moves_made] and [mines] alone; it returns a cell exactly when that cell
    is the first one in row-major order that is on the board and in neither
    set, and it does return one whenever such a cell exists: nothing random
    is involved. *)
Theorem make_random_move_deterministic (st1 st2 : t) :
  height st1 = height st2 → width st1 = width st2 →
  moves_made st1 = moves_made st2 → mines st1 = mines st2 →
  (make_random_move st1).1 = (make_random_move st2).1 ∧
  (∀ c, (make_random_move st1).1 = Some c ↔
        in_bounds st1 c = true ∧ (c ∉ moves_made st1 ∪ mines st1) ∧
        ∀ d, in_bounds st1 d = true → d ∉ moves_made st1 ∪ mines st1 →
             ¬ row_major_lt d c) ∧
  ((∃ d, in_bounds st1 d = true ∧ d ∉ moves_made st1 ∪ mines st1) →
   ∃ c, (make_random_move st1).1 = Some c).
Proof.
  intros Hh Hw Hm Hn. split_and!.
  - unfold make_random_move. simpl. by rewrite Hh, Hw, Hm, Hn.
  - intros c. rewrite make_random_move_Some. unfold free. split.
    + intros (Hb & [Hfm Hfn] & Hmin).
      split; [done|]. split; [set_solver|].
      intros d Hd Hfree Hlt. apply (Hmin d Hd Hlt). split; set_solver.
    + intros (Hb & Hfree & Hmin). split; [done|]. split; [set_solver|].
      intros d Hd Hlt [Hdm Hdn]. apply (Hmin d Hd); [set_solver|done].
  - intros (d & Hb & Hfree).
    destruct (make_random_move st1).1 as [c|] eqn:E; [by exists c|].
    rewrite make_random_move_None in E. destruct (E d Hb). split; set_solver.
Qed.

(** Two players that differ in [safes] only get the same move, the cell
    (0,1): (0,0) was played and (0,1) is the next one in row-major order. *)
Lemma make_random_move_deterministic_witness :
  (make_random_move (set_moves_made {[(0, 0)]} (init 2 2))).1
  = (make_random_move
       (set_safes {[(0, 0)]} (set_moves_made {[(0, 0)]} (init 2 2)))).1 ∧
  (make_random_move (set_moves_made {[(0, 0)]} (init 2 2))).1 = Some (0, 1).
Proof.
  destruct (make_random_move_deterministic
              (set_moves_made {[(0, 0)]} (init 2 2))
              (set_safes {[(0, 0)]} (set_moves_made {[(0, 0)]} (init 2 2))))
    as (Heq & Hmin & _); [reflexivity..|].
  split; [exact Heq|]. apply Hmin. split_and!.
  - reflexivity.
  - compute_done.
  - intros d [Hd1 Hd2]%in_bounds_spec Hfree [Hlt|[Hrow Hlt]]; simpl in *.
    + lia.
    + assert (d = (0, 0)) as -> by (destruct d; simpl in *; f_equal; lia).
      apply Hfree. compute_done.
Defined.

(** ** make_safe_move *)

(** C9. [make_safe_move] returns a cell of [safes ∖ moves_made ∖ mines]
    when that set is not empty and [None] when it is empty, and it leaves
    the state as it was. *)
Theorem make_safe_move_query (st : t) :
  (∀ c, (make_safe_move st).1 = Some c →
        c ∈ safes st ∖ moves_made st ∖ mines st) ∧
  (safes st ∖ moves_made st ∖ mines st ≠ ∅ →
   ∃ c, (make_safe_move st).1 = Some c) ∧
  (safes st ∖ moves_made st ∖ mines st = ∅ → (make_safe_move st).1 = None) ∧
  (make_safe_move st).2 = st.
Proof.
  unfold make_safe_move. simpl. split_and!; [| | |done].
  - intros c (l1 & x & l2 & E & _ & Hx)%for_return_Some.
    destruct (decide _) as [[Hm Hn]|]; [|done]. simplify_eq.
    assert (c ∈ elements (safes st)) as Hc%elem_of_elements
      by (rewrite E; set_solver).
    set_solver.
  - intros Hne. apply set_choose_L in Hne as [c Hc].
    destruct (for_return _ _) as [d|] eqn:E; [by exists d|].
    rewrite for_return_None, Forall_forall in E.
    specialize (E c). rewrite elem_of_elements in E.
    destruct (decide _) as [|Hn]; [by discriminate E; set_solver|].
    destruct Hn. set_solver.
  - intros Hemp. apply for_return_None, Forall_forall.
    intros c Hc%elem_of_elements.
    destruct (decide _) as [[Hm Hn]|]; [|done]. set_solver.
Qed.

(** A player that knows (0,0) to be safe and has not played it. *)
Lemma make_safe_move_query_witness :
  ∃ c, (make_safe_move (mark_safe (0, 0) (init 2 2))).1 = Some c.
Proof.
  apply (make_safe_move_query (mark_safe (0, 0) (init 2 2))).
  compute_done.
Defined.

(** ** mark_mine and mark_safe *)

Section update_all.
Context (f : Sentence.t → Sentence.t).
Hypothesis f_idem : ∀ s, f (f s) = f s.

Lemma lookup_update_all refs h r :
  update_all f refs h !! r =
  if decide (r ∈ refs) then f <$> h !! r else h !! r.
Proof.
  revert h. induction refs as [|a refs IH]; intros h; simpl.
  - done.
  - unfold update_all in *. simpl. rewrite IH.
    destruct (decide (r = a)) as [->|Hne].
    + rewrite list_lookup_alter_eq.
      rewrite (decide_True (P := a ∈ a :: refs)) by set_solver.
      case_decide; [|done].
      destruct (h !! a); simpl; [|done]. by rewrite f_idem.
    + rewrite list_lookup_alter_ne by done.
      repeat case_decide; set_solver.
Qed.

Lemma update_all_idem refs h :
  update_all f refs (update_all f refs h) = update_all f refs h.
Proof.
  apply list_eq. intros r. rewrite !lookup_update_all.
  case_decide; [|done].
  destruct (h !! r); simpl; [|done]. by rewrite f_idem.
Qed.
End update_all.

Lemma Sentence_mark_mine_idem c s :
  Sentence.mark_mine c (Sentence.mark_mine c s) = Sentence.mark_mine c s.
Proof.
  unfold Sentence.mark_mine. destruct (decide (c ∈ Sentence.cells s)); simpl.
  - rewrite decide_False by set_solver. done.
  - rewrite decide_False by done. done.
Qed.

Lemma Sentence_mark_safe_idem c s :
  Sentence.mark_safe c (Sentence.mark_safe c s) = Sentence.mark_safe c s.
Proof.
  unfold Sentence.mark_safe. destruct (decide (c ∈ Sentence.cells s)); simpl.
  - rewrite decide_False by set_solver. done.
  - rewrite decide_False by done. done.
Qed.

(** C8. Marking the same cell twice, as safe or as a mine, leaves the
    player and every sentence as marking it once does. *)
Theorem mark_idempotent (cell : Cell) (st : t) :
  mark_safe cell (mark_safe cell st) = mark_safe cell st ∧
  mark_mine cell (mark_mine cell st) = mark_mine cell st.
Proof.
  split.
  - unfold mark_safe, set_safes, set_heap. simpl. f_equal.
    + set_solver.
    + apply update_all_idem, Sentence_mark_safe_idem.
  - unfold mark_mine, set_mines, set_heap. simpl. f_equal.
    + set_solver.
    + apply update_all_idem, Sentence_mark_mine_idem.
Qed.

(** ** Results *)

Lemma bind_Ok {A B} (m : result A) (f : A → result B) (b : B) :
  m ≫= f = Ok b ↔ ∃ a, m = Ok a ∧ f a = Ok b.
Proof.
  destruct m; simpl; [|by split; [|intros (? & ? & ?)]..].
  split; [by eauto|]. by intros (? & [= <-] & ?).
Qed.

Lemma py_index_Ok {A} (l : list A) (i : Z) (x : A) :
  py_index l i = Ok x → x ∈ l.
Proof.
  unfold py_index. repeat case_decide; try done.
  - destruct (l !! _) eqn:E; [|done]. intros [= <-].
    by eapply list_elem_of_lookup_2.
  - destruct (l !! _) eqn:E; [|done]. intros [= <-].
    by eapply list_elem_of_lookup_2.
Qed.

Lemma py_index_nonneg {A} (l : list A) (i : Z) :
  0 ≤ i < Z.of_nat (length l) → ∃ x, py_index l i = Ok x ∧ l !! Z.to_nat i = Some x.
Proof.
  intros Hi. unfold py_index. rewrite decide_True by lia.
  destruct (lookup_lt_is_Some_2 l (Z.to_nat i)) as [x Hx]; [lia|].
  rewrite Hx. eauto.
Qed.

(** ** The store *)

Lemma remove_Ok x st st' :
  remove x st = Ok st' →
  ∃ q r, knowledge st !! q = Some r ∧ same st x r = true ∧
         (∀ j y, knowledge st !! j = Some y → same st x y = true → (q ≤ j)%nat) ∧
         st' = set_knowledge (delete q (knowledge st)) st.
Proof.
  unfold remove. destruct (list_find _ _) as [[q r]|] eqn:E; [|done].
  intros [= <-]. apply list_find_Some in E as (Hq & Hr & Hmin).
  exists q, r. split_and!; try done.
  intros j y Hj Hy. destruct (decide (q ≤ j)%nat); [done|].
  destruct (Hmin j y); [done|lia|done].
Qed.

Lemma remove_elem_of x st :
  x ∈ knowledge st → ∃ st', remove x st = Ok st'.
Proof.
  intros Hx. unfold remove.
  destruct (list_find_elem_of (λ r, same st x r = true) (knowledge st) x)
    as [[q r] ->]; [done| |by eauto].
  unfold same. by rewrite bool_decide_eq_true_2.
Qed.

(** ** What the loops preserve *)

Section preservation.
Context (Inv : t → Prop) (M S : Cell → Prop).

Hypothesis inv_mark_mine : ∀ st c, Inv st → M c → Inv (mark_mine c st).
Hypothesis inv_mark_safe : ∀ st c, Inv st → S c → Inv (mark_safe c st).
Hypothesis inv_known_mines :
  ∀ st x c, Inv st → c ∈ Sentence.known_mines (deref st x) → M c.
Hypothesis inv_known_safes :
  ∀ st x c, Inv st → c ∈ Sentence.known_safes (deref st x) → S c.
Hypothesis inv_delete :
  ∀ st q, Inv st → Inv (set_knowledge (delete q (knowledge st)) st).
Hypothesis inv_sweep :
  ∀ st c r, Inv st → c ∈ safes st ∪ mines st → r ∈ knowledge st →
            Inv (set_heap (alter (Sentence.mark_safe c) r (heap st)) st).
Hypothesis inv_derive :
  ∀ st ki kj, Inv st → ki ∈ knowledge st → kj ∈ knowledge st →
    Sentence.cells (deref st kj) ⊂ Sentence.cells (deref st ki) →
    Inv (append_new
           (Sentence.mk
              (Sentence.cells (deref st ki) ∖ Sentence.cells (deref st kj))
              (Sentence.count (deref st ki) - Sentence.count (deref st kj)))
           st).

Lemma remove_inv x st st' : Inv st → remove x st = Ok st' → Inv st'.
Proof.
  intros HI (q & r & _ & _ & _ & ->)%remove_Ok. by apply inv_delete.
Qed.

Lemma mark_mines_inv l st :
  Inv st → Forall M l → Inv (foldl (λ st c, mark_mine c st) st l).
Proof.
  intros HI Hl. revert st HI.
  induction Hl as [|c l Hc Hl IH]; intros st HI; simpl; [done|].
  by apply IH, inv_mark_mine.
Qed.

Lemma mark_safes_inv l st :
  Inv st → Forall S l → Inv (foldl (λ st c, mark_safe c st) st l).
Proof.
  intros HI Hl. revert st HI.
  induction Hl as [|c l Hc Hl IH]; intros st HI; simpl; [done|].
  by apply IH, inv_mark_safe.
Qed.

Lemma remove_loop_inv snapshot any st any' st' :
  Inv st → remove_loop snapshot any st = Ok (any', st') → Inv st'.
Proof.
  revert any st. induction snapshot as [|x rest IH]; intros any st HI; simpl.
  - by intros [= _ <-].
  - repeat case_match.
    + intros (st1 & Hrm & Hrest)%bind_Ok.
      eapply IH; [|done]. by eapply remove_inv.
    + intros (st1 & Hrm & Hrest)%bind_Ok.
      eapply IH; [|done]. eapply remove_inv; [|done].
      apply mark_mines_inv; [done|].
      apply Forall_forall. intros c Hc%elem_of_elements. by eapply inv_known_mines.
    + intros (st1 & Hrm & Hrest)%bind_Ok.
      eapply IH; [|done]. eapply remove_inv; [|done].
      apply mark_safes_inv; [done|].
      apply Forall_forall. intros c Hc%elem_of_elements. by eapply inv_known_safes.
    + by apply IH.
Qed.

Lemma sweep_refs_inv c refs acc :
  Inv acc.2 → c ∈ safes acc.2 ∪ mines acc.2 → refs ⊆ knowledge acc.2 →
  Inv (foldl (sweep_step c) acc refs).2 ∧
  same_frame acc.2 (foldl (sweep_step c) acc refs).2.
Proof.
  revert acc. induction refs as [|r refs IH]; intros [any st] HI Hc Hrefs; simpl in *.
  - done.
  - destruct (IH (sweep_step c (any, st) r)) as [HI' Hfr]; simpl.
    + apply inv_sweep; [done..|]. set_solver.
    + done.
    + set_solver.
    + split; [done|]. destruct Hfr as (?&?&?&?&?&?). by repeat split.
Qed.

Lemma sweep_cell_inv c acc :
  Inv acc.2 → c ∈ safes acc.2 ∪ mines acc.2 →
  Inv (sweep_cell acc c).2 ∧ same_frame acc.2 (sweep_cell acc c).2.
Proof. intros. by apply sweep_refs_inv. Qed.

Lemma sweep_cells_inv l acc :
  Inv acc.2 → l ⊆ elements (safes acc.2 ∪ mines acc.2) →
  Inv (foldl sweep_cell acc l).2 ∧ same_frame acc.2 (foldl sweep_cell acc l).2.
Proof.
  revert acc. induction l as [|c l IH]; intros acc HI Hl; simpl.
  - done.
  - destruct (sweep_cell_inv c acc) as [HI' Hfr]; [done| |].
    { apply elem_of_elements, Hl. set_solver. }
    destruct (IH (sweep_cell acc c)) as [HI'' Hfr']; [done| |].
    { destruct Hfr as (?&?&?&Hm&Hs&?). rewrite Hm, Hs. set_solver. }
    split; [done|].
    destruct Hfr as (?&?&?&?&?&?), Hfr' as (?&?&?&?&?&?).
    repeat split; congruence.
Qed.

Lemma update_mines_and_safes_in_KB_inv st :
  Inv st →
  Inv (update_mines_and_safes_in_KB st).2 ∧
  same_frame st (update_mines_and_safes_in_KB st).2.
Proof.
  intros HI. unfold update_mines_and_safes_in_KB.
  destruct (sweep_cells_inv (elements (safes st)) (false, st)) as [HI' Hfr];
    [done| |].
  { intros c. rewrite !elem_of_elements. set_solver. }
  simpl in *.
  destruct (sweep_cells_inv
              (elements (mines (foldl sweep_cell (false, st) (elements (safes st))).2))
              (foldl sweep_cell (false, st) (elements (safes st)))) as [HI'' Hfr'];
    [done| |].
  { intros c. rewrite !elem_of_elements. set_solver. }
  split; [done|].
  destruct Hfr as (?&?&?&?&?&?), Hfr' as (?&?&?&?&?&?).
  repeat split; congruence.
Qed.

Lemma saturate_inv fuel st st' :
  Inv st → saturate fuel st = Ok st' → Inv st'.
Proof.
  revert st. induction fuel as [|fuel IH]; intros st HI; simpl; [done|].
  intros ([removed st1] & HR & Hrest)%bind_Ok.
  apply remove_loop_inv in HR; [|done].
  destruct removed; [by eapply IH|].
  destruct (update_mines_and_safes_in_KB st1) as [modified st2] eqn:EU.
  pose proof (update_mines_and_safes_in_KB_inv st1 HR) as [HI2 _].
  rewrite EU in HI2. simpl in HI2.
  destruct modified; [by eapply IH|]. by simplify_eq.
Qed.

Lemma saturation_inv st st' : Inv st → saturation st = Ok st' → Inv st'.
Proof.
  apply saturate_inv.
Qed.

Lemma inner_loop_inv fuel st i j i_max j_max c :
  Inv st → inner_loop fuel st i j i_max j_max = Ok c → Inv (c_st c).
Proof.
  revert st i j i_max j_max.
  induction fuel as [|fuel IH]; intros st i j i_max j_max HI; simpl.
  - case_decide; [done|]. by intros [= <-].
  - case_decide; [|by intros [= <-]].
    case_decide; [by apply IH|].
    intros (ki & Hki & (kj & Hkj & Hrest)%bind_Ok)%bind_Ok.
    apply py_index_Ok in Hki, Hkj.
    destruct (Sentence.eq _ _).
    + apply bind_Ok in Hrest as (st1 & Hrm & Hrest).
      eapply IH; [|done]. by eapply remove_inv.
    + eapply IH; [|done]. case_decide; [|done]. by apply inv_derive.
Qed.

Lemma outer_loop_inv fuel st i j i_max st' :
  Inv st → outer_loop fuel st i j i_max = Ok st' → Inv st'.
Proof.
  revert st i j i_max.
  induction fuel as [|fuel IH]; intros st i j i_max HI; simpl.
  - case_decide; [done|]. by intros [= <-].
  - case_decide; [|by intros [= <-]].
    intros (c & Hin & Hrest)%bind_Ok.
    eapply IH; [|done]. by eapply inner_loop_inv.
Qed.

Lemma expansion_inv cell st st' : Inv st → expansion cell st = Ok st' → Inv st'.
Proof. apply outer_loop_inv. Qed.

(** [add_knowledge] keeps the invariant once the new sentence is in. *)
Lemma add_knowledge_inv cell count st st' :
  Inv (record_move cell count st) →
  add_knowledge cell count st = Ok st' → Inv st'.
Proof.
  intros HI. unfold add_knowledge. cbv zeta.
  intros (st1 & H1 & (st2 & H2 & H3)%bind_Ok)%bind_Ok.
  eapply saturation_inv; [|done].
  eapply expansion_inv; [|done].
  by eapply saturation_inv.
Qed.
End preservation.

(** ** Sentences *)

Lemma mark_mine_cells c s :
  Sentence.cells (Sentence.mark_mine c s) = Sentence.cells s ∖ {[c]}.
Proof. unfold Sentence.mark_mine. case_decide; simpl; set_solver. Qed.

Lemma mark_safe_cells c s :
  Sentence.cells (Sentence.mark_safe c s) = Sentence.cells s ∖ {[c]}.
Proof. unfold Sentence.mark_safe. case_decide; simpl; set_solver. Qed.

Lemma mark_safe_absent c s :
  c ∉ Sentence.cells s → Sentence.mark_safe c s = s.
Proof. intros. unfold Sentence.mark_safe. by rewrite decide_False. Qed.

Lemma mark_safe_count c s :
  Sentence.count (Sentence.mark_safe c s) = Sentence.count s.
Proof. unfold Sentence.mark_safe. by case_decide. Qed.

Lemma mark_mine_dummy c : Sentence.mark_mine c Sentence.dummy = Sentence.dummy.
Proof. unfold Sentence.mark_mine. rewrite decide_False; [done|set_solver]. Qed.

Lemma mark_safe_dummy c : Sentence.mark_safe c Sentence.dummy = Sentence.dummy.
Proof. unfold Sentence.mark_safe. rewrite decide_False; [done|set_solver]. Qed.

Lemma elem_of_size_pos (X : gset Cell) (x : Cell) : x ∈ X → (0 < size X)%nat.
Proof.
  intros Hx. destruct (size X) eqn:E; [|lia].
  apply size_empty_inv in E. set_solver.
Qed.

Section truthful.
Context (g : Minesweeper.t).
Implicit Types (s : Sentence.t) (c : Cell).

Lemma truthful_dummy : truthful g Sentence.dummy.
Proof. reflexivity. Qed.

Lemma truthful_in_range s : truthful g s → count_in_range s.
Proof.
  unfold truthful, mines_among, count_in_range. intros ->.
  assert (size (filter (mined g) (Sentence.cells s)) ≤ size (Sentence.cells s))%nat.
  { apply subseteq_size. intros c. rewrite elem_of_filter. tauto. }
  lia.
Qed.

Lemma truthful_mark_mine c s :
  mined g c → truthful g s → truthful g (Sentence.mark_mine c s).
Proof.
  unfold truthful, mines_among, Sentence.mark_mine. intros Hc Hs.
  case_decide as Hin; [|done]. simpl. rewrite Hs.
  assert (filter (mined g) (Sentence.cells s ∖ {[c]})
          = filter (mined g) (Sentence.cells s) ∖ {[c]}) as ->.
  { apply set_eq. intros x. rewrite !elem_of_difference, !elem_of_filter,
      elem_of_difference. tauto. }
  assert (Hcf : c ∈ filter (mined g) (Sentence.cells s))
    by (by apply elem_of_filter).
  rewrite size_difference by (by apply singleton_subseteq_l).
  rewrite size_singleton. apply elem_of_size_pos in Hcf. lia.
Qed.

Lemma truthful_mark_safe c s :
  ¬ mined g c → truthful g s → truthful g (Sentence.mark_safe c s).
Proof.
  unfold truthful, mines_among, Sentence.mark_safe. intros Hc Hs.
  case_decide as Hin; [|done]. simpl. rewrite Hs. do 2 f_equal.
  apply set_eq. intros x. rewrite !elem_of_filter, elem_of_difference,
    elem_of_singleton. split; [|tauto].
  intros [Hx Hxs]. split_and!; try done. by intros ->.
Qed.

Lemma truthful_known_mines c s :
  truthful g s → c ∈ Sentence.known_mines s → mined g c.
Proof.
  unfold truthful, mines_among, Sentence.known_mines. intros Hs.
  case_decide as Hsz; [|set_solver]. intros Hc.
  assert (E : filter (mined g) (Sentence.cells s) = Sentence.cells s).
  { apply set_subseteq_size_eq.
    - intros x. rewrite elem_of_filter. tauto.
    - lia. }
  rewrite <- E in Hc. by apply elem_of_filter in Hc as [? _].
Qed.

Lemma truthful_known_safes c s :
  truthful g s → c ∈ Sentence.known_safes s → ¬ mined g c.
Proof.
  unfold truthful, mines_among, Sentence.known_safes. intros Hs.
  case_decide as Hz; [|set_solver]. intros Hc Hm.
  assert (Hcf : c ∈ filter (mined g) (Sentence.cells s))
    by (by apply elem_of_filter).
  apply elem_of_size_pos in Hcf. lia.
Qed.

Lemma truthful_difference (a b : Sentence.t) :
  truthful g a → truthful g b → Sentence.cells b ⊆ Sentence.cells a →
  truthful g (Sentence.mk (Sentence.cells a ∖ Sentence.cells b)
                          (Sentence.count a - Sentence.count b)).
Proof.
  unfold truthful, mines_among. simpl. intros -> -> Hsub.
  assert (filter (mined g) (Sentence.cells a ∖ Sentence.cells b)
          = filter (mined g) (Sentence.cells a)
              ∖ filter (mined g) (Sentence.cells b)) as ->.
  { apply set_eq. intros x. rewrite !elem_of_difference, !elem_of_filter,
      elem_of_difference. tauto. }
  assert (Hf : filter (mined g) (Sentence.cells b)
               ⊆ filter (mined g) (Sentence.cells a)).
  { intros x. rewrite !elem_of_filter. set_solver. }
  rewrite size_difference by done.
  apply subseteq_size in Hf. lia.
Qed.
End truthful.

(** ** The store under the marks *)

Lemma deref_update_all f refs st r :
  (∀ s, f (f s) = f s) → f Sentence.dummy = Sentence.dummy →
  deref (set_heap (update_all f refs (heap st)) st) r =
  if decide (r ∈ refs) then f (deref st r) else deref st r.
Proof.
  intros Hidem Hdummy. unfold deref. simpl. rewrite lookup_update_all by done.
  case_decide; [|done]. by destruct (heap st !! r).
Qed.

Lemma deref_mark_mine c st r :
  deref (mark_mine c st) r =
  if decide (r ∈ knowledge st) then Sentence.mark_mine c (deref st r) else deref st r.
Proof.
  unfold mark_mine.
  apply (deref_update_all (Sentence.mark_mine c) (knowledge st)
           (set_mines ({[c]} ∪ mines st) st) r).
  - apply Sentence_mark_mine_idem.
  - apply mark_mine_dummy.
Qed.

Lemma deref_mark_safe c st r :
  deref (mark_safe c st) r =
  if decide (r ∈ knowledge st) then Sentence.mark_safe c (deref st r) else deref st r.
Proof.
  unfold mark_safe.
  apply (deref_update_all (Sentence.mark_safe c) (knowledge st)
           (set_safes ({[c]} ∪ safes st) st) r).
  - apply Sentence_mark_safe_idem.
  - apply mark_safe_dummy.
Qed.

Lemma deref_alter f r st r' :
  f Sentence.dummy = Sentence.dummy →
  deref (set_heap (alter f r (heap st)) st) r' =
  if decide (r = r') then f (deref st r') else deref st r'.
Proof.
  intros Hdummy. unfold deref. simpl. case_decide as E.
  - subst. rewrite list_lookup_alter_eq. by destruct (heap st !! r').
  - by rewrite list_lookup_alter_ne.
Qed.

Lemma deref_append_new s st r :
  deref (append_new s st) r =
  if decide (r < length (heap st))%nat then deref st r
  else if decide (r = length (heap st)) then s else Sentence.dummy.
Proof.
  unfold deref, append_new. simpl. repeat case_decide.
  - by rewrite lookup_app_l.
  - subst. by rewrite list_lookup_middle.
  - rewrite (proj2 (lookup_ge_None _ _)); [done|].
    rewrite length_app. simpl. lia.
Qed.

Lemma Forall_update_all (P : Sentence.t → Prop) f refs h :
  (∀ s, P s → P (f s)) → Forall P h → Forall P (update_all f refs h).
Proof.
  intros Hf. revert h. induction refs as [|r refs IH]; intros h Hh; simpl; [done|].
  apply IH. apply Forall_alter; [done|]. eauto.
Qed.

(** ** No live constraint keeps a confirmed mine *)

Lemma mines_cleared_mark_mine c st :
  mines_cleared st → mines_cleared (mark_mine c st).
Proof.
  intros H r Hr. rewrite deref_mark_mine. specialize (H r Hr).
  rewrite decide_True by done. rewrite mark_mine_cells.
  unfold mark_mine. simpl. set_solver.
Qed.

Lemma mines_cleared_mark_safe c st :
  mines_cleared st → mines_cleared (mark_safe c st).
Proof.
  intros H r Hr. rewrite deref_mark_safe. specialize (H r Hr).
  rewrite decide_True by done. rewrite mark_safe_cells.
  unfold mark_safe. simpl. set_solver.
Qed.

Lemma mines_cleared_delete q st :
  mines_cleared st → mines_cleared (set_knowledge (delete q (knowledge st)) st).
Proof.
  intros H r Hr. simpl in Hr. apply list_elem_of_delete_inv in Hr.
  by apply H.
Qed.

Lemma mines_cleared_sweep c r st :
  mines_cleared st →
  mines_cleared (set_heap (alter (Sentence.mark_safe c) r (heap st)) st).
Proof.
  intros H r' Hr'. rewrite deref_alter by apply mark_safe_dummy.
  specialize (H r' Hr'). simpl in *.
  case_decide; [|done]. rewrite mark_safe_cells. set_solver.
Qed.

Lemma mines_cleared_append_new s st :
  Sentence.cells s ## mines st →
  mines_cleared st → mines_cleared (append_new s st).
Proof.
  intros Hs H r Hr. rewrite deref_append_new. simpl in *.
  repeat case_decide; [|done|set_solver].
  apply elem_of_app in Hr as [Hr|Hr]; [by apply H|].
  apply list_elem_of_singleton in Hr. lia.
Qed.

Lemma mines_cleared_derive st ki kj :
  mines_cleared st → ki ∈ knowledge st →
  mines_cleared
    (append_new
       (Sentence.mk (Sentence.cells (deref st ki) ∖ Sentence.cells (deref st kj))
                    (Sentence.count (deref st ki) - Sentence.count (deref st kj)))
       st).
Proof.
  intros H Hki. apply mines_cleared_append_new; [|done].
  specialize (H ki Hki). simpl. set_solver.
Qed.

(** ** Beliefs stay true of the board *)

Section sound.
Context (g : Minesweeper.t).

Lemma sound_truthful st r : sound g st → truthful g (deref st r).
Proof.
  intros Hs. unfold deref. destruct (heap st !! r) as [s|] eqn:E; simpl.
  - eapply Forall_lookup_1; [apply (sound_heap _ _ Hs)|done].
  - apply truthful_dummy.
Qed.

Lemma sound_mark_mine st c : sound g st → mined g c → sound g (mark_mine c st).
Proof.
  intros [] Hc. split; simpl; try done.
  - intros x [->%elem_of_singleton|Hx]%elem_of_union; auto.
  - apply Forall_update_all; [|done]. intros s. by apply truthful_mark_mine.
  - by apply mines_cleared_mark_mine.
Qed.

Lemma sound_mark_safe st c : sound g st → ¬ mined g c → sound g (mark_safe c st).
Proof.
  intros [] Hc. split; simpl; try done.
  - intros x [->%elem_of_singleton|Hx]%elem_of_union; auto.
  - set_solver.
  - apply Forall_update_all; [|done]. intros s. by apply truthful_mark_safe.
  - by apply mines_cleared_mark_safe.
Qed.

Lemma sound_delete st q :
  sound g st → sound g (set_knowledge (delete q (knowledge st)) st).
Proof.
  intros []. split; simpl; try done. by apply mines_cleared_delete.
Qed.

Lemma sound_sweep st c r :
  sound g st → c ∈ safes st ∪ mines st → r ∈ knowledge st →
  sound g (set_heap (alter (Sentence.mark_safe c) r (heap st)) st).
Proof.
  intros Hs Hc Hr. pose proof Hs as [].
  split; simpl; try done; [|by apply mines_cleared_sweep].
  apply Forall_alter; [done|]. intros s Hlook Hts.
  apply elem_of_union in Hc as [Hc|Hc].
  - apply truthful_mark_safe; auto.
  - rewrite mark_safe_absent; [done|].
    specialize (sound_cleared0 r Hr). unfold deref in sound_cleared0.
    rewrite Hlook in sound_cleared0. simpl in *. set_solver.
Qed.

Lemma sound_append_new st s :
  sound g st → truthful g s → Sentence.cells s ## mines st →
  sound g (append_new s st).
Proof.
  intros [] Hs Hdisj. split; simpl; try done.
  - apply Forall_app. split; [done|]. by constructor.
  - by apply mines_cleared_append_new.
Qed.

Lemma sound_derive st ki kj :
  sound g st → ki ∈ knowledge st → kj ∈ knowledge st →
  Sentence.cells (deref st kj) ⊂ Sentence.cells (deref st ki) →
  sound g
    (append_new
       (Sentence.mk (Sentence.cells (deref st ki) ∖ Sentence.cells (deref st kj))
                    (Sentence.count (deref st ki) - Sentence.count (deref st kj)))
       st).
Proof.
  intros Hs Hki Hkj [Hsub _]. apply sound_append_new; [done| |].
  - apply truthful_difference; [by apply sound_truthful..|done].
  - pose proof (sound_cleared _ _ Hs ki Hki). simpl. set_solver.
Qed.

Lemma sound_known_mines st x c :
  sound g st → c ∈ Sentence.known_mines (deref st x) → mined g c.
Proof. intros Hs. apply truthful_known_mines. by apply sound_truthful. Qed.

Lemma sound_known_safes st x c :
  sound g st → c ∈ Sentence.known_safes (deref st x) → ¬ mined g c.
Proof. intros Hs. apply truthful_known_safes. by apply sound_truthful. Qed.
End sound.

(** ** The neighbour scan *)

Lemma block_cells (cell : Cell) :
  Minesweeper.block cell =
  [ (cell.1 - 1, cell.2 - 1); (cell.1 - 1, cell.2); (cell.1 - 1, cell.2 + 1);
    (cell.1, cell.2 - 1); (cell.1, cell.2); (cell.1, cell.2 + 1);
    (cell.1 + 1, cell.2 - 1); (cell.1 + 1, cell.2); (cell.1 + 1, cell.2 + 1) ].
Proof.
  unfold Minesweeper.block, range.
  replace (cell.1 + 2 - (cell.1 - 1)) with 3 by lia.
  replace (cell.2 + 2 - (cell.2 - 1)) with 3 by lia.
  unfold seqZ. simpl.
  repeat (f_equal; try lia).
Qed.

Lemma NoDup_block (cell : Cell) : NoDup (Minesweeper.block cell).
Proof.
  rewrite block_cells.
  repeat (apply NoDup_cons; split;
          [intros H;
           repeat (apply elem_of_cons in H as [H|H]; [injection H; lia|]);
           by apply elem_of_nil in H|]).
  apply NoDup_nil_2.
Qed.

Lemma nearby_fold_error (g : Minesweeper.t) (cell : Cell) (l : list Cell)
    (e : result Z) (n : Z) :
  (∀ m, e ≠ Ok m) → foldl (Minesweeper.nearby_step g cell) e l ≠ Ok n.
Proof.
  revert e. induction l as [|x l IH]; intros e He; simpl; [done|].
  apply IH. intros m. destruct e; try done. by destruct (He a).
Qed.

Section scan.
Context (g : Minesweeper.t) (st : t) (cell : Cell).

Hypothesis same_height : height st = Minesweeper.height g.
Hypothesis same_width : width st = Minesweeper.width g.
Hypothesis mines_mined : ∀ c, c ∈ mines st → mined g c.
Hypothesis moves_clear : ∀ c, c ∈ moves_made st → ¬ mined g c.

Lemma mines_among_insert x N :
  x ∉ N → mines_among g ({[x]} ∪ N) = mines_among g N + (if decide (mined g x) then 1 else 0).
Proof.
  intros Hx. unfold mines_among. destruct (decide (mined g x)) as [Hm|Hm].
  - assert (filter (mined g) ({[x]} ∪ N) = {[x]} ∪ filter (mined g) N) as ->.
    { apply set_eq. intros y.
      rewrite elem_of_union, !elem_of_filter, elem_of_union, elem_of_singleton.
      naive_solver. }
    rewrite size_union, size_singleton; [lia|].
    intros y ->%elem_of_singleton [_ Hy]%elem_of_filter. done.
  - assert (filter (mined g) ({[x]} ∪ N) = filter (mined g) N) as ->; [|lia].
    apply set_eq. intros y.
    rewrite !elem_of_filter, elem_of_union, elem_of_singleton.
    naive_solver.
Qed.

Lemma scan_step_balance N c n x n1 :
  x ∉ N →
  Minesweeper.nearby_step g cell (Ok n) x = Ok n1 →
  (scan_step st cell (N, c) x).2 - mines_among g (scan_step st cell (N, c) x).1 + n1
  = c - mines_among g N + n ∧
  (N ## mines st → (scan_step st cell (N, c) x).1 ## mines st) ∧
  (scan_step st cell (N, c) x).1 ⊆ {[x]} ∪ N.
Proof.
  intros Hx. unfold Minesweeper.nearby_step, scan_step. simpl.
  assert (Hb : in_bounds st x = Minesweeper.in_bounds g x).
  { unfold in_bounds, Minesweeper.in_bounds. by rewrite same_height, same_width. }
  rewrite Hb.
  destruct (decide (x = cell)) as [_|Hne].
  { intros [= <-]. simpl. split; [lia|]. split; [done|set_solver]. }
  destruct (Minesweeper.in_bounds g x).
  2: { intros [= <-]. simpl. split; [lia|]. split; [done|set_solver]. }
  destruct (Minesweeper.is_mine g x) as [b| | |] eqn:Emine; simpl; try done.
  intros [= <-].
  destruct (decide (x ∈ mines st)) as [Hm|Hm].
  - rewrite decide_False by tauto. simpl.
    assert (b = true) as ->.
    { specialize (mines_mined x Hm). unfold mined in *. congruence. }
    split; [lia|]. split; [done|set_solver].
  - destruct (decide (x ∈ moves_made st)) as [Hv|Hv].
    + rewrite decide_False by tauto. simpl.
      assert (b = false) as ->.
      { specialize (moves_clear x Hv). unfold mined in *. by destruct b. }
      split; [lia|]. split; [done|set_solver].
    + rewrite decide_True by tauto. simpl.
      rewrite mines_among_insert by done. split; [|split; [set_solver|set_solver]].
      destruct b;
        [rewrite decide_True by done
        |rewrite decide_False by (unfold mined; congruence)]; lia.
Qed.

Lemma scan_fold l N c n n' :
  NoDup l → (∀ x, x ∈ l → x ∉ N) →
  foldl (Minesweeper.nearby_step g cell) (Ok n) l = Ok n' →
  (foldl (scan_step st cell) (N, c) l).2
    - mines_among g (foldl (scan_step st cell) (N, c) l).1 + n'
  = c - mines_among g N + n ∧
  (N ## mines st → (foldl (scan_step st cell) (N, c) l).1 ## mines st).
Proof.
  intros Hnd. revert N c n.
  induction Hnd as [|x l Hx Hnd IH]; intros N c n Hfresh; cbn [foldl].
  - intros [= ->]. simpl. split; [lia|done].
  - destruct (Minesweeper.nearby_step g cell (Ok n) x) as [n1| | |] eqn:Estep;
      try (intros Hbad; by apply nearby_fold_error in Hbad).
    intros Hfold.
    destruct (scan_step_balance N c n x n1) as (E1 & D1 & S1);
      [apply Hfresh; set_solver|done|].
    destruct (scan_step st cell (N, c) x) as [N1 c1]. simpl in E1, D1, S1.
    destruct (IH N1 c1 n1) as [E D]; [|exact Hfold|].
    { intros y Hy HN1. apply S1 in HN1.
      apply elem_of_union in HN1 as [->%elem_of_singleton|HN]; [done|].
      apply (Hfresh y); [set_solver|done]. }
    split; [lia|]. intros HN. by apply D, D1.
Qed.

Lemma scan_truthful count :
  Minesweeper.nearby_mines g cell = Ok count →
  truthful g (Sentence.mk (scan st cell count).1 (scan st cell count).2) ∧
  (scan st cell count).1 ## mines st.
Proof.
  intros Hn. unfold scan.
  destruct (scan_fold (Minesweeper.block cell) ∅ count 0 count) as [E D].
  - apply NoDup_block.
  - set_solver.
  - done.
  - split; [|apply D; set_solver].
    assert (Hmu : mines_among g ∅ = 0) by reflexivity.
    rewrite Hmu in E. unfold truthful. simpl. lia.
Qed.
End scan.

(** ** Runs that agree with a board *)

Section played.
Context (g : Minesweeper.t).

Lemma sound_init :
  sound g (init (Minesweeper.height g) (Minesweeper.width g)).
Proof.
  by split.
Qed.

Lemma sound_set_moves_made st X :
  sound g st → X ⊆ safes st → sound g (set_moves_made X st).
Proof. intros [] HX. split; simpl; done. Qed.

Lemma sound_add_knowledge st cell count st' :
  sound g st → observes g cell count →
  add_knowledge cell count st = Ok st' → sound g st'.
Proof.
  intros Hs (Hb & Hclear & Hcount).
  assert (Hcell : ¬ mined g cell) by (unfold mined; congruence).
  assert (Hs2 : sound g (mark_safe cell
                           (set_moves_made ({[cell]} ∪ moves_made st) st))).
  { change (sound g (set_moves_made ({[cell]} ∪ moves_made st)
                                    (mark_safe cell st))).
    apply sound_set_moves_made; [by apply sound_mark_safe|].
    pose proof (sound_moves _ _ Hs). simpl. set_solver. }
  apply (add_knowledge_inv (sound g) (mined g) (λ c, ¬ mined g c)).
  - apply sound_mark_mine.
  - apply sound_mark_safe.
  - apply sound_known_mines.
  - apply sound_known_safes.
  - apply sound_delete.
  - apply sound_sweep.
  - apply sound_derive.
  - unfold record_move. cbv zeta.
    destruct (scan_truthful g
                (mark_safe cell (set_moves_made ({[cell]} ∪ moves_made st) st))
                cell) with (count := count) as [Ht Hd].
    + apply (sound_height _ _ Hs2).
    + apply (sound_width _ _ Hs2).
    + apply (sound_mines _ _ Hs2).
    + intros c Hc. apply (sound_safes _ _ Hs2), (sound_moves _ _ Hs2), Hc.
    + done.
    + destruct (scan _ _ _) as [nbrs cnt]. by apply sound_append_new.
Qed.

Lemma played_sound st : played g st → sound g st.
Proof.
  induction 1 as [|st cell count st' _ IH Hobs Hadd|st cell _ IH Hc|st cell _ IH Hc].
  - apply sound_init.
  - by eapply sound_add_knowledge.
  - by apply sound_mark_mine.
  - by apply sound_mark_safe.
Qed.

Lemma observed_played st : observed g st → played g st.
Proof.
  induction 1; [apply played_init|by eapply played_add].
Qed.
End played.

Lemma sound_live_in_range g st : sound g st → Forall count_in_range (live st).
Proof.
  intros Hs. unfold live. apply Forall_fmap, Forall_forall. intros r _.
  simpl. eapply truthful_in_range, sound_truthful, Hs.
Qed.

(** C3. When every [add_knowledge] call reports the true count of a
    mine-free cell of one board, every live constraint satisfies
    [0 ≤ count ≤ |cells|]. *)
Theorem count_in_range_when_observed (g : Minesweeper.t) (st : t) :
  observed g st → Forall count_in_range (live st).
Proof.
  intros H. eapply sound_live_in_range, played_sound, observed_played, H.
Qed.

(** Two observations of the 3x3 board with its mine at (0,0). *)
Lemma count_in_range_when_observed_witness :
  ∃ st, run [((1, 1), 1); ((2, 2), 0)]
            (init (Minesweeper.height corner_board) (Minesweeper.width corner_board))
        = Ok st ∧
        Forall count_in_range (live st).
Proof.
  eexists. split; [vm_compute; reflexivity|].
  apply (count_in_range_when_observed corner_board).
  eapply (observed_add _ _ (2, 2) 0).
  - eapply (observed_add _ _ (1, 1) 1).
    + apply observed_init.
    + split_and!; vm_compute; reflexivity.
    + vm_compute; reflexivity.
  - split_and!; vm_compute; reflexivity.
  - vm_compute; reflexivity.
Defined.

(** C4. When every call agrees with one board ([add_knowledge] with the
    true count of a mine-free cell, [mark_mine] on mines, [mark_safe] on
    mine-free cells), [mines] and [safes] are disjoint. *)
Theorem mines_safes_disjoint_when_played (g : Minesweeper.t) (st : t) :
  played g st → mines st ∩ safes st = ∅.
Proof.
  intros Hs%played_sound. apply set_eq. intros c.
  rewrite elem_of_intersection. split; [|set_solver].
  intros [Hm Hf]. destruct (sound_safes _ _ Hs c Hf). by apply (sound_mines _ _ Hs).
Qed.

(** The mine of the 3x3 board is flagged, then the centre is observed. *)
Lemma mines_safes_disjoint_when_played_witness :
  ∃ st, run [((1, 1), 1)] (mark_mine (0, 0) (init 3 3)) = Ok st ∧
        mines st ∩ safes st = ∅.
Proof.
  eexists. split; [vm_compute; reflexivity|].
  apply (mines_safes_disjoint_when_played corner_board).
  eapply (played_add _ _ (1, 1) 1).
  - apply (played_mark_mine corner_board (init 3 3) (0, 0));
      [exact (played_init corner_board)|].
    vm_compute; reflexivity.
  - split_and!; vm_compute; reflexivity.
  - vm_compute; reflexivity.
Defined.

(** C5. 3x3 board, one mine at (0,0): [add_knowledge((2,2), 0)] is an
    observation of that board; after it [safes] is exactly
    {(1,1), (1,2), (2,1), (2,2)}, the revealed cell and its neighbours; and
    (0,0) is in [safes] in no state reached by observations of the board. *)
Theorem corner_reveal :
  observes corner_board (2, 2) 0 ∧
  (∃ st1, add_knowledge (2, 2) 0 (init 3 3) = Ok st1 ∧
          safes st1 = {[(1, 1); (1, 2); (2, 1); (2, 2)]}) ∧
  (∀ st, observed corner_board st → (0, 0) ∉ safes st).
Proof.
  split; [split_and!; vm_compute; reflexivity|]. split.
  - eexists. split; vm_compute; reflexivity.
  - intros st Hs%observed_played%played_sound Hin.
    apply (sound_safes _ _ Hs _ Hin). vm_compute; reflexivity.
Qed.

(** The state after the corner is revealed. *)
Lemma corner_reveal_witness :
  ∃ st, add_knowledge (2, 2) 0 (init 3 3) = Ok st ∧ (0, 0) ∉ safes st.
Proof.
  eexists. split; [vm_compute; reflexivity|].
  apply (proj2 (proj2 corner_reveal)).
  eapply (observed_add corner_board _ (2, 2) 0).
  - exact (observed_init corner_board).
  - split_and!; vm_compute; reflexivity.
  - vm_compute; reflexivity.
Defined.

(** ** The loops come to an end *)

Lemma sum_list_with_le {A} (f f' : A → nat) (l : list A) :
  (∀ x, x ∈ l → f' x ≤ f x)%nat →
  (sum_list_with f' l ≤ sum_list_with f l)%nat.
Proof.
  induction l as [|x l IH]; intros H; simpl; [done|].
  assert (f' x ≤ f x)%nat by (apply H; set_solver).
  assert (sum_list_with f' l ≤ sum_list_with f l)%nat
    by (apply IH; intros; apply H; set_solver).
  lia.
Qed.

Lemma sum_list_with_lt {A} (f f' : A → nat) (l : list A) (y : A) :
  (∀ x, x ∈ l → f' x ≤ f x)%nat → y ∈ l → (f' y < f y)%nat →
  (sum_list_with f' l < sum_list_with f l)%nat.
Proof.
  induction l as [|x l IH]; intros H Hy Hlt; simpl.
  - by apply elem_of_nil in Hy.
  - assert (f' x ≤ f x)%nat by (apply H; set_solver).
    assert (sum_list_with f' l ≤ sum_list_with f l)%nat
      by (apply sum_list_with_le; intros; apply H; set_solver).
    apply elem_of_cons in Hy as [->|Hy]; [lia|].
    assert (sum_list_with f' l < sum_list_with f l)%nat; [|lia].
    apply IH; [|done..]. intros; apply H; set_solver.
Qed.

Lemma sum_list_with_delete {A} (f : A → nat) (l : list A) (q : nat) (x : A) :
  l !! q = Some x → sum_list_with f l = (f x + sum_list_with f (delete q l))%nat.
Proof.
  revert q. induction l as [|y l IH]; intros [|q] Hq; simplify_eq/=; [done|].
  rewrite (IH q Hq). lia.
Qed.

Lemma weight_le st st' :
  knowledge st' = knowledge st →
  (∀ r, r ∈ knowledge st → cell_count st' r ≤ cell_count st r)%nat →
  (weight st' ≤ weight st)%nat.
Proof.
  intros Hk H. unfold weight. rewrite Hk.
  apply (sum_list_with_le (λ r, S (cell_count st r)) (λ r, S (cell_count st' r))).
  intros r Hr. specialize (H r Hr). lia.
Qed.

Lemma weight_lt st st' r :
  knowledge st' = knowledge st →
  (∀ r, r ∈ knowledge st → cell_count st' r ≤ cell_count st r)%nat →
  r ∈ knowledge st → (cell_count st' r < cell_count st r)%nat →
  (weight st' < weight st)%nat.
Proof.
  intros Hk H Hr Hlt. unfold weight. rewrite Hk.
  apply (sum_list_with_lt (λ r, S (cell_count st r)) (λ r, S (cell_count st' r)) _ r);
    [|done|lia].
  intros x Hx. specialize (H x Hx). lia.
Qed.

Lemma weight_mark_mine c st : (weight (mark_mine c st) ≤ weight st)%nat.
Proof.
  apply weight_le; [done|]. intros r Hr. unfold cell_count.
  rewrite deref_mark_mine, decide_True by done. rewrite mark_mine_cells.
  apply subseteq_size. set_solver.
Qed.

Lemma weight_mark_safe c st : (weight (mark_safe c st) ≤ weight st)%nat.
Proof.
  apply weight_le; [done|]. intros r Hr. unfold cell_count.
  rewrite deref_mark_safe, decide_True by done. rewrite mark_safe_cells.
  apply subseteq_size. set_solver.
Qed.

Lemma weight_mark_mines l st :
  (weight (foldl (λ st c, mark_mine c st) st l) ≤ weight st)%nat ∧
  knowledge (foldl (λ st c, mark_mine c st) st l) = knowledge st.
Proof.
  revert st. induction l as [|c l IH]; intros st; simpl; [done|].
  destruct (IH (mark_mine c st)) as [Hw Hk]. rewrite Hk. split; [|done].
  pose proof (weight_mark_mine c st). lia.
Qed.

Lemma weight_mark_safes l st :
  (weight (foldl (λ st c, mark_safe c st) st l) ≤ weight st)%nat ∧
  knowledge (foldl (λ st c, mark_safe c st) st l) = knowledge st.
Proof.
  revert st. induction l as [|c l IH]; intros st; simpl; [done|].
  destruct (IH (mark_safe c st)) as [Hw Hk]. rewrite Hk. split; [|done].
  pose proof (weight_mark_safe c st). lia.
Qed.

Lemma weight_delete st q r :
  knowledge st !! q = Some r →
  (weight (set_knowledge (delete q (knowledge st)) st) < weight st)%nat.
Proof.
  intros Hq. unfold weight. simpl.
  change (deref (set_knowledge (delete q (knowledge st)) st)) with (deref st).
  rewrite (sum_list_with_delete _ _ q r Hq). lia.
Qed.

(** [self.knowledge.remove(x)] for an [x] of the snapshot that is still
    to come: the sentence dropped is [x] or stands before it. *)
Lemma remove_suffix x rest st :
  (x :: rest) `suffix_of` knowledge st →
  ∃ st', remove x st = Ok st' ∧
         rest `suffix_of` knowledge st' ∧
         (weight st' < weight st)%nat.
Proof.
  intros [P HP].
  destruct (remove_elem_of x st) as [st' Hrm].
  { rewrite HP. set_solver. }
  exists st'. split; [done|].
  apply remove_Ok in Hrm as (q & r & Hq & _ & Hmin & ->).
  split; [|by eapply weight_delete].
  simpl. assert (Hle : (q ≤ length P)%nat).
  { apply (Hmin (length P) x).
    - rewrite HP. by rewrite list_lookup_middle.
    - unfold same. by rewrite bool_decide_eq_true_2. }
  rewrite HP. destruct (decide (q = length P)) as [->|Hne].
  - rewrite delete_middle. by apply suffix_app_r.
  - rewrite delete_take_drop.
    exists (take q P ++ drop (S q) P ++ [x]).
    rewrite take_app_le by lia.
    rewrite drop_app_le by lia.
    by rewrite <- !app_assoc.
Qed.

Lemma remove_loop_total snapshot any st :
  snapshot `suffix_of` knowledge st →
  ∃ any' st',
    remove_loop snapshot any st = Ok (any', st') ∧
    (weight st' + Nat.b2n any' ≤ weight st + Nat.b2n any)%nat.
Proof.
  revert any st. induction snapshot as [|x rest IH]; intros any st Hsuf; simpl.
  - eauto.
  - repeat case_match.
    + destruct (remove_suffix x rest st Hsuf) as (st1 & -> & Hsuf1 & Hw1). simpl.
      destruct (IH true st1 Hsuf1) as (any' & st' & -> & Hw).
      exists any', st'. split; [done|]. destruct any, any'; simpl in *; lia.
    + destruct (weight_mark_mines
                  (elements (Sentence.known_mines (deref st x))) st) as [Hw0 Hk0].
      destruct (remove_suffix x rest
                  (foldl (λ st c, mark_mine c st) st
                     (elements (Sentence.known_mines (deref st x)))))
        as (st1 & -> & Hsuf1 & Hw1); [by rewrite Hk0|]. simpl.
      destruct (IH true st1 Hsuf1) as (any' & st' & -> & Hw).
      exists any', st'. split; [done|]. destruct any, any'; simpl in *; lia.
    + destruct (weight_mark_safes
                  (elements (Sentence.known_safes (deref st x))) st) as [Hw0 Hk0].
      destruct (remove_suffix x rest
                  (foldl (λ st c, mark_safe c st) st
                     (elements (Sentence.known_safes (deref st x)))))
        as (st1 & -> & Hsuf1 & Hw1); [by rewrite Hk0|]. simpl.
      destruct (IH true st1 Hsuf1) as (any' & st' & -> & Hw).
      exists any', st'. split; [done|]. destruct any, any'; simpl in *; lia.
    + apply IH. by eapply suffix_cons_l.
Qed.

Lemma sweep_step_weight c acc r :
  r ∈ knowledge acc.2 →
  (weight (sweep_step c acc r).2 + Nat.b2n (sweep_step c acc r).1
   ≤ weight acc.2 + Nat.b2n acc.1)%nat ∧
  knowledge (sweep_step c acc r).2 = knowledge acc.2.
Proof.
  destruct acc as [any st]. simpl. intros Hr. split; [|done].
  assert (Hle : ∀ r', (cell_count
                         (set_heap (alter (Sentence.mark_safe c) r (heap st)) st) r'
                       ≤ cell_count st r')%nat).
  { intros r'. unfold cell_count. rewrite deref_alter by apply mark_safe_dummy.
    case_decide; [|done]. rewrite mark_safe_cells. apply subseteq_size. set_solver. }
  case_decide as Hc; simpl.
  - assert (weight (set_heap (alter (Sentence.mark_safe c) r (heap st)) st)
            < weight st)%nat; [|lia].
    apply (weight_lt _ _ r); [done|by auto|done|].
    unfold cell_count. rewrite deref_alter by apply mark_safe_dummy.
    rewrite decide_True by done. rewrite mark_safe_cells.
    apply subset_size. set_solver.
  - assert (weight (set_heap (alter (Sentence.mark_safe c) r (heap st)) st)
            ≤ weight st)%nat; [|lia].
    apply weight_le; [done|by auto].
Qed.

Lemma sweep_refs_weight c refs acc :
  refs ⊆ knowledge acc.2 →
  (weight (foldl (sweep_step c) acc refs).2 + Nat.b2n (foldl (sweep_step c) acc refs).1
   ≤ weight acc.2 + Nat.b2n acc.1)%nat ∧
  knowledge (foldl (sweep_step c) acc refs).2 = knowledge acc.2.
Proof.
  revert acc. induction refs as [|r refs IH]; intros acc Hrefs; simpl; [done|].
  destruct (sweep_step_weight c acc r) as [Hw Hk]; [set_solver|].
  destruct (IH (sweep_step c acc r)) as [Hw' Hk']; [rewrite Hk; set_solver|].
  split; [lia|congruence].
Qed.

Lemma sweep_cells_weight l acc :
  (weight (foldl sweep_cell acc l).2 + Nat.b2n (foldl sweep_cell acc l).1
   ≤ weight acc.2 + Nat.b2n acc.1)%nat.
Proof.
  revert acc. induction l as [|c l IH]; intros acc; simpl; [done|].
  destruct (sweep_refs_weight c (knowledge acc.2) acc) as [Hw _]; [done|].
  specialize (IH (sweep_cell acc c)). unfold sweep_cell in *. lia.
Qed.

Lemma update_mines_and_safes_in_KB_weight st :
  (weight (update_mines_and_safes_in_KB st).2
   + Nat.b2n (update_mines_and_safes_in_KB st).1 ≤ weight st)%nat.
Proof.
  unfold update_mines_and_safes_in_KB.
  pose proof (sweep_cells_weight (elements (safes st)) (false, st)) as H1.
  pose proof (sweep_cells_weight
                (elements (mines (foldl sweep_cell (false, st) (elements (safes st))).2))
                (foldl sweep_cell (false, st) (elements (safes st)))) as H2.
  simpl in *. lia.
Qed.

Lemma saturate_total fuel st :
  (weight st < fuel)%nat → ∃ st', saturate fuel st = Ok st'.
Proof.
  revert st. induction fuel as [|fuel IH]; intros st Hw; [lia|]. simpl.
  destruct (remove_loop_total (knowledge st) false st) as (removed & st1 & HR & Hw1);
    [done|].
  unfold remove_empties_and_safes_and_Mines. rewrite HR. simpl.
  destruct removed; simpl in Hw1.
  - apply IH. lia.
  - pose proof (update_mines_and_safes_in_KB_weight st1) as Hw2.
    destruct (update_mines_and_safes_in_KB st1) as [modified st2]. simpl in Hw2.
    destruct modified; simpl in Hw2; [|by eauto].
    apply IH. lia.
Qed.

Lemma saturation_total st : ∃ st', saturation st = Ok st'.
Proof. apply saturate_total. lia. Qed.

Lemma remove_size_kb x st st' :
  remove x st = Ok st' → size_kb st' = size_kb st - 1.
Proof.
  intros (q & r & Hq & _ & _ & ->)%remove_Ok. unfold size_kb. simpl.
  rewrite length_delete by eauto. apply lookup_lt_Some in Hq. lia.
Qed.

Lemma append_new_size_kb s st : size_kb (append_new s st) = size_kb st + 1.
Proof. unfold size_kb. simpl. rewrite length_app. simpl. lia. Qed.

Lemma inner_loop_total fuel st i j i_max j_max :
  0 ≤ i → 0 ≤ j → i_max ≤ size_kb st → j_max ≤ size_kb st →
  (j < j_max → i < size_kb st) →
  (Z.to_nat (j_max - j) ≤ fuel)%nat →
  ∃ c, inner_loop fuel st i j i_max j_max = Ok c ∧
       0 ≤ c_i c ∧ 0 ≤ c_j c ∧
       c_imax c ≤ size_kb (c_st c) ∧
       c_imax c - c_i c ≤ i_max - i.
Proof.
  revert st i j i_max j_max.
  induction fuel as [|fuel IH]; intros st i j i_max j_max Hi Hj Him Hjm Hil Hfuel.
  - simpl. rewrite decide_False by lia.
    eexists. split; [done|]. simpl. lia.
  - simpl. case_decide as Hlt.
    2: { eexists. split; [done|]. simpl. lia. }
    case_decide as Heq.
    { apply IH; lia. }
    destruct (py_index_nonneg (knowledge st) i) as (ki & -> & Hki);
      [unfold size_kb in *; lia|].
    destruct (py_index_nonneg (knowledge st) j) as (kj & -> & Hkj);
      [unfold size_kb in *; lia|].
    simpl. destruct (Sentence.eq _ _).
    + destruct (remove_elem_of kj st) as [st1 Hrm];
        [by eapply list_elem_of_lookup_2|].
      rewrite Hrm. simpl. apply remove_size_kb in Hrm.
      destruct (IH st1 (if decide (j < i) then i - 1 else i) j
                  (i_max - 1) (j_max - 1)) as (c & Hc & ? & ? & ? & ?);
        try (case_decide; lia); try lia.
      exists c. split; [done|]. case_decide; lia.
    + case_decide.
      * destruct (IH (append_new
               (Sentence.mk
                  (Sentence.cells (deref st ki) ∖ Sentence.cells (deref st kj))
                  (Sentence.count (deref st ki) - Sentence.count (deref st kj)))
               st) i (j + 1) i_max j_max) as (c & Hc & ? & ? & ? & ?);
          rewrite ?append_new_size_kb; try lia.
        exists c. split; [done|]. lia.
      * destruct (IH st i (j + 1) i_max j_max) as (c & Hc & ? & ? & ? & ?);
          try lia.
        exists c. split; [done|]. lia.
Qed.

Lemma outer_loop_total fuel st i j i_max :
  0 ≤ i → 0 ≤ j → i_max ≤ size_kb st →
  (Z.to_nat (i_max - i) ≤ fuel)%nat →
  ∃ st', outer_loop fuel st i j i_max = Ok st'.
Proof.
  revert st i j i_max.
  induction fuel as [|fuel IH]; intros st i j i_max Hi Hj Him Hfuel.
  - simpl. rewrite decide_False by lia. eauto.
  - simpl. case_decide as Hlt; [|by eauto].
    destruct (inner_loop_total (Z.to_nat (size_kb st - j)) st i j i_max (size_kb st))
      as (c & Hc & ? & ? & ? & ?); try lia.
    fold (size_kb st). rewrite Hc. simpl. apply IH; lia.
Qed.

Lemma expansion_total cell st :
  0 ≤ cell.1 → 0 ≤ cell.2 → ∃ st', expansion cell st = Ok st'.
Proof.
  intros. unfold expansion. apply outer_loop_total; unfold size_kb; lia.
Qed.

Lemma add_knowledge_total cell count st :
  0 ≤ cell.1 → 0 ≤ cell.2 → ∃ st', add_knowledge cell count st = Ok st'.
Proof.
  intros H1 H2. unfold add_knowledge. cbv zeta.
  match goal with
  | |- context [saturation ?s] => destruct (saturation_total s) as [st1 ->]
  end.
  simpl. destruct (expansion_total cell st1 H1 H2) as [st2 ->]. simpl.
  apply saturation_total.
Qed.

Lemma py_index_fuel {A} (l : list A) (i : Z) : py_index l i ≠ OutOfFuel.
Proof. unfold py_index. by repeat case_match. Qed.

Lemma remove_fuel x st : remove x st ≠ OutOfFuel.
Proof. unfold remove. by repeat case_match. Qed.

(** The step budgets are never the reason a call stops, whatever the
    arguments. *)
Lemma inner_loop_fuel fuel st i j i_max j_max :
  (Z.to_nat (j_max - j) ≤ fuel)%nat →
  inner_loop fuel st i j i_max j_max ≠ OutOfFuel ∧
  ∀ c, inner_loop fuel st i j i_max j_max = Ok c → c_imax c - c_i c ≤ i_max - i.
Proof.
  revert st i j i_max j_max.
  induction fuel as [|fuel IH]; intros st i j i_max j_max Hfuel; simpl.
  - rewrite decide_False by lia. split; [done|]. intros c [= <-]. simpl. lia.
  - case_decide as Hlt; [|split; [done|]; intros c [= <-]; simpl; lia].
    case_decide as Heq; [apply IH; lia|].
    pose proof (py_index_fuel (knowledge st) i) as Hi.
    pose proof (py_index_fuel (knowledge st) j) as Hj.
    destruct (py_index (knowledge st) i) as [ki| | |]; simpl; try by split.
    destruct (py_index (knowledge st) j) as [kj| | |]; simpl; try by split.
    destruct (Sentence.eq _ _).
    + pose proof (remove_fuel kj st) as Hrm.
      destruct (remove kj st) as [st1| | |]; simpl; try by split.
      destruct (IH st1 (if decide (j < i) then i - 1 else i) j
                  (i_max - 1) (j_max - 1)) as [H1 H2]; [lia|].
      split; [done|]. intros c Hc. specialize (H2 c Hc). case_decide; lia.
    + apply IH. lia.
Qed.

Lemma outer_loop_fuel fuel st i j i_max :
  (Z.to_nat (i_max - i) ≤ fuel)%nat → outer_loop fuel st i j i_max ≠ OutOfFuel.
Proof.
  revert st i j i_max.
  induction fuel as [|fuel IH]; intros st i j i_max Hfuel; simpl.
  - by rewrite decide_False by lia.
  - case_decide as Hlt; [|done].
    destruct (inner_loop_fuel (Z.to_nat (Z.of_nat (length (knowledge st)) - j))
                st i j i_max (Z.of_nat (length (knowledge st)))) as [H1 H2]; [lia|].
    destruct (inner_loop _ _ _ _ _ _) as [c| | |]; simpl; try done.
    apply IH. specialize (H2 c eq_refl). lia.
Qed.

Lemma add_knowledge_fuel cell count st : add_knowledge cell count st ≠ OutOfFuel.
Proof.
  unfold add_knowledge. cbv zeta.
  match goal with
  | |- context [saturation ?s] => destruct (saturation_total s) as [st1 ->]
  end.
  simpl. pose proof (outer_loop_fuel
                       (Z.to_nat (Z.of_nat (length (knowledge st1)) - (cell.1 + 1)))
                       st1 (cell.1 + 1) (cell.2 + 1)
                       (Z.of_nat (length (knowledge st1)))) as Hout.
  unfold expansion. destruct (outer_loop _ _ _ _ _) as [st2| | |]; simpl; try done.
  - destruct (saturation_total st2) as [st3 ->]. done.
  - by destruct Hout.
Qed.

(** ** Every board can be played *)

Lemma py_index_in_range {A} (l : list A) (i : Z) :
  0 ≤ i < Z.of_nat (length l) → ∃ x, py_index l i = Ok x ∧ x ∈ l.
Proof.
  intros Hi. destruct (py_index_nonneg l i Hi) as (x & Hx & Hl).
  exists x. split; [done|]. by eapply list_elem_of_lookup_2.
Qed.

Lemma is_mine_total g c :
  Minesweeper.wf g → Minesweeper.in_bounds g c = true →
  ∃ b, Minesweeper.is_mine g c = Ok b.
Proof.
  intros (Hh & Hw & Hlen & Hrows) Hb. unfold Minesweeper.in_bounds in Hb.
  apply andb_true_iff in Hb as [Hi%bool_decide_eq_true Hj%bool_decide_eq_true].
  unfold Minesweeper.is_mine.
  destruct (py_index_in_range (Minesweeper.board g) c.1) as (row & -> & Hrow);
    [lia|].
  simpl. rewrite Forall_forall in Hrows. specialize (Hrows row Hrow).
  destruct (py_index_in_range row c.2) as (b & -> & _); [lia|]. eauto.
Qed.

Lemma nearby_fold_total g cell l n :
  Minesweeper.wf g →
  ∃ n', foldl (Minesweeper.nearby_step g cell) (Ok n) l = Ok n'.
Proof.
  intros Hwf. revert n. induction l as [|x l IH]; intros n; cbn [foldl]; [eauto|].
  unfold Minesweeper.nearby_step at 2. simpl.
  case_decide; [apply IH|].
  destruct (Minesweeper.in_bounds g x) eqn:Hb; [|apply IH].
  destruct (is_mine_total g x Hwf Hb) as [b ->]. simpl. apply IH.
Qed.

Lemma nearby_mines_total g cell :
  Minesweeper.wf g → ∃ n, Minesweeper.nearby_mines g cell = Ok n.
Proof. apply nearby_fold_total. Qed.

(** Whatever was observed so far, the next mine-free cell can be revealed
    and its count recorded. *)
Lemma observed_step g st cell :
  Minesweeper.wf g → observed g st →
  Minesweeper.in_bounds g cell = true →
  Minesweeper.is_mine g cell = Ok false →
  ∃ count st',
    observes g cell count ∧ add_knowledge cell count st = Ok st' ∧
    observed g st'.
Proof.
  intros Hwf Hobs Hb Hm.
  destruct (nearby_mines_total g cell Hwf) as [count Hcount].
  unfold Minesweeper.in_bounds in Hb. pose proof Hb as Hb'.
  apply andb_true_iff in Hb' as [Hi%bool_decide_eq_true Hj%bool_decide_eq_true].
  destruct (add_knowledge_total cell count st) as [st' Hadd]; [lia..|].
  exists count, st'. split; [done|]. split; [done|].
  by eapply observed_add.
Qed.

(** ** Confirmed mines never stay in a live constraint *)

Lemma scan_fold_disjoint st cell l acc :
  acc.1 ## mines st → (foldl (scan_step st cell) acc l).1 ## mines st.
Proof.
  revert acc. induction l as [|x l IH]; intros acc Hacc; simpl; [done|].
  apply IH. unfold scan_step.
  repeat case_match; simpl; try done; set_solver.
Qed.

Lemma scan_disjoint st cell count : (scan st cell count).1 ## mines st.
Proof. apply scan_fold_disjoint. simpl. set_solver. Qed.

Lemma mines_cleared_add_knowledge cell count st st' :
  mines_cleared st → add_knowledge cell count st = Ok st' → mines_cleared st'.
Proof.
  intros Hs.
  apply (add_knowledge_inv mines_cleared (λ _, True) (λ _, True)); try done.
  - intros. by apply mines_cleared_mark_mine.
  - intros. by apply mines_cleared_mark_safe.
  - intros. by apply mines_cleared_delete.
  - intros. by apply mines_cleared_sweep.
  - intros. by apply mines_cleared_derive.
  - unfold record_move. cbv zeta.
    pose proof (scan_disjoint
                  (mark_safe cell (set_moves_made ({[cell]} ∪ moves_made st) st))
                  cell count) as Hd.
    destruct (scan _ _ _) as [nbrs cnt].
    apply mines_cleared_append_new; [done|].
    by apply mines_cleared_mark_safe.
Qed.

Lemma driven_mines_cleared h w st : driven h w st → mines_cleared st.
Proof.
  induction 1 as [|st cell count st' _ IH Hadd|st cell _ IH|st cell _ IH].
  - intros r Hr. by apply elem_of_nil in Hr.
  - by eapply mines_cleared_add_knowledge.
  - by apply mines_cleared_mark_mine.
  - by apply mines_cleared_mark_safe.
Qed.

Lemma list_alter_fixed {A} (f : A → A) (l : list A) (i : nat) :
  (∀ x, l !! i = Some x → f x = x) → alter f i l = l.
Proof.
  intros H. apply list_eq. intros j. destruct (decide (i = j)) as [->|Hne].
  - rewrite list_lookup_alter_eq. destruct (l !! j) eqn:E; [|done].
    simpl. by rewrite H.
  - by rewrite list_lookup_alter_ne.
Qed.

Lemma sweep_step_absent c any st r :
  c ∉ Sentence.cells (deref st r) → sweep_step c (any, st) r = (any, st).
Proof.
  intros Hc. unfold sweep_step. rewrite decide_False by done. f_equal.
  rewrite list_alter_fixed; [by destruct st|].
  intros s Hs. apply mark_safe_absent. unfold deref in Hc. by rewrite Hs in Hc.
Qed.

Lemma sweep_refs_absent c refs any st :
  (∀ r, r ∈ refs → c ∉ Sentence.cells (deref st r)) →
  foldl (sweep_step c) (any, st) refs = (any, st).
Proof.
  induction refs as [|r refs IH]; intros H; cbn [foldl]; [done|].
  rewrite sweep_step_absent by (apply H; set_solver).
  apply IH. intros; apply H; set_solver.
Qed.

(** In a state built with the three methods, the loop over [self.mines]
    of [update_mines_and_safes_in_KB] finds nothing to change. *)
Lemma sweep_mines_idle h w st l any :
  driven h w st → l ⊆ elements (mines st) →
  foldl sweep_cell (any, st) l = (any, st).
Proof.
  intros Hd%driven_mines_cleared.
  induction l as [|c l IH]; intros Hl; cbn [foldl]; [done|].
  unfold sweep_cell at 2. cbn [snd]. rewrite sweep_refs_absent.
  - apply IH. set_solver.
  - intros r Hr. specialize (Hd r Hr).
    assert (c ∈ mines st) by (apply elem_of_elements, Hl; set_solver).
    set_solver.
Qed.

(** [update_mines_and_safes_in_KB] never changes a count. *)
Lemma sweep_step_count c acc r r' :
  Sentence.count (deref (sweep_step c acc r).2 r')
  = Sentence.count (deref acc.2 r').
Proof.
  destruct acc as [any st]. simpl.
  rewrite deref_alter by apply mark_safe_dummy.
  case_decide; [apply mark_safe_count|done].
Qed.

Lemma sweep_refs_count c refs acc r' :
  Sentence.count (deref (foldl (sweep_step c) acc refs).2 r')
  = Sentence.count (deref acc.2 r').
Proof.
  revert acc. induction refs as [|r refs IH]; intros acc; cbn [foldl]; [done|].
  rewrite IH. apply sweep_step_count.
Qed.

Lemma sweep_cells_count l acc r' :
  Sentence.count (deref (foldl sweep_cell acc l).2 r')
  = Sentence.count (deref acc.2 r').
Proof.
  revert acc. induction l as [|c l IH]; intros acc; cbn [foldl]; [done|].
  rewrite IH. apply sweep_refs_count.
Qed.

Lemma update_mines_and_safes_in_KB_count st r :
  Sentence.count (deref (update_mines_and_safes_in_KB st).2 r)
  = Sentence.count (deref st r).
Proof.
  unfold update_mines_and_safes_in_KB. cbv zeta.
  rewrite sweep_cells_count. apply (sweep_cells_count _ (false, st)).
Qed.

(** ** What [add_knowledge] changes *)

Lemma keeps_refl st : keeps st st.
Proof. by repeat split. Qed.

Lemma keeps_trans st1 st2 st3 : keeps st1 st2 → keeps st2 st3 → keeps st1 st3.
Proof.
  intros (?&?&?&?&?) (?&?&?&?&?). repeat split; try congruence; set_solver.
Qed.

Section keeps.
Context (st0 : t).

Lemma keeps_add_knowledge_loops cell count st st' :
  keeps st0 (record_move cell count st) →
  add_knowledge cell count st = Ok st' → keeps st0 st'.
Proof.
  apply (add_knowledge_inv (keeps st0) (λ _, True) (λ _, True)); try done.
  all: intros s c (?&?&?&?&?) _; repeat split; simpl; try done; set_solver.
Qed.
End keeps.

Lemma record_move_fields cell count st :
  height (record_move cell count st) = height st ∧
  width (record_move cell count st) = width st ∧
  moves_made (record_move cell count st) = {[cell]} ∪ moves_made st ∧
  mines (record_move cell count st) = mines st ∧
  safes (record_move cell count st) = {[cell]} ∪ safes st.
Proof. unfold record_move. cbv zeta. by destruct (scan _ _ _). Qed.

Lemma add_knowledge_keeps cell count st st' :
  add_knowledge cell count st = Ok st' →
  keeps (record_move cell count st) st'.
Proof. apply keeps_add_knowledge_loops, keeps_refl. Qed.

(** ** Where the saturation loop stops *)

Lemma remove_loop_flag snapshot st b st' :
  remove_loop snapshot true st = Ok (b, st') → b = true.
Proof.
  revert st. induction snapshot as [|x rest IH]; intros st; simpl.
  - by intros [= <- _].
  - repeat case_match; try (intros (st1 & _ & Hrest)%bind_Ok; by eapply IH).
    apply IH.
Qed.

Lemma remove_loop_false snapshot st st' :
  remove_loop snapshot false st = Ok (false, st') →
  st' = st ∧ Forall (idle st) snapshot.
Proof.
  induction snapshot as [|x rest IH]; simpl.
  - by intros [= <-].
  - case_decide as Hsz.
    { intros (st1 & _ & Hrest%remove_loop_flag)%bind_Ok. done. }
    destruct (non_empty (Sentence.known_mines _)) eqn:Hm.
    { intros (st1 & _ & Hrest%remove_loop_flag)%bind_Ok. done. }
    destruct (non_empty (Sentence.known_safes _)) eqn:Hs.
    { intros (st1 & _ & Hrest%remove_loop_flag)%bind_Ok. done. }
    intros [-> Hrest]%IH. split; [done|]. constructor; [|done].
    assert (Hne : Sentence.cells (deref st x) ≠ ∅).
    { intros E. rewrite E in Hsz. by rewrite size_empty in Hsz. }
    unfold non_empty in Hm, Hs.
    apply negb_false_iff, bool_decide_eq_true in Hm, Hs.
    unfold Sentence.known_mines in Hm. unfold Sentence.known_safes in Hs.
    split; [done|]. split.
    + intros E. rewrite decide_True in Hs by done. by apply Hne.
    + intros E. rewrite decide_True in Hm by done. by apply Hne.
Qed.

Lemma sweep_refs_false c refs any st :
  (foldl (sweep_step c) (any, st) refs).1 = false →
  any = false ∧ foldl (sweep_step c) (any, st) refs = (false, st) ∧
  ∀ r, r ∈ refs → c ∉ Sentence.cells (deref st r).
Proof.
  revert any st. induction refs as [|r refs IH]; intros any st; cbn [foldl].
  - simpl. intros ->. split; [done|]. split; [done|]. intros r Hr.
    by apply elem_of_nil in Hr.
  - destruct (sweep_step c (any, st) r) as [any1 st1] eqn:E.
    intros (-> & Hfold & Hrest)%IH.
    unfold sweep_step in E. case_decide as Hc; simplify_eq.
    pose proof (sweep_step_absent c false st r Hc) as Hst.
    unfold sweep_step in Hst. rewrite decide_False in Hst by done.
    injection Hst as Hst. rewrite ?Hst in Hfold, Hrest |- *.
    split; [done|]. split; [done|].
    intros r' [->|Hr']%elem_of_cons; auto.
Qed.

Lemma sweep_cells_false l any st :
  (foldl sweep_cell (any, st) l).1 = false →
  any = false ∧ foldl sweep_cell (any, st) l = (false, st) ∧
  ∀ c r, c ∈ l → r ∈ knowledge st → c ∉ Sentence.cells (deref st r).
Proof.
  revert any st. induction l as [|c l IH]; intros any st; cbn [foldl].
  - simpl. intros ->. split; [done|]. split; [done|]. intros c r Hc.
    by apply elem_of_nil in Hc.
  - destruct (sweep_cell (any, st) c) as [any1 st1] eqn:E.
    intros (-> & Hfold & Hrest)%IH.
    unfold sweep_cell in E. cbn [snd] in E.
    assert (Hfst : (foldl (sweep_step c) (any, st) (knowledge st)).1 = false)
      by (by rewrite E).
    apply sweep_refs_false in Hfst as (-> & Hst & Hc).
    rewrite Hst in E. simplify_eq.
    split; [done|]. split; [done|].
    intros c' r [->|Hc']%elem_of_cons Hr; auto.
Qed.

Lemma update_mines_and_safes_in_KB_false st st' :
  update_mines_and_safes_in_KB st = (false, st') →
  st' = st ∧
  ∀ r, r ∈ knowledge st → Sentence.cells (deref st r) ## safes st ∪ mines st.
Proof.
  unfold update_mines_and_safes_in_KB. cbv zeta. intros E.
  assert (H2 : (foldl sweep_cell (foldl sweep_cell (false, st) (elements (safes st)))
                  (elements (mines (foldl sweep_cell (false, st)
                                      (elements (safes st))).2))).1 = false)
    by (by rewrite E).
  destruct (foldl sweep_cell (false, st) (elements (safes st)))
    as [any1 st1] eqn:E1.
  apply sweep_cells_false in H2 as (-> & H2 & Hm).
  assert (H1 : (foldl sweep_cell (false, st) (elements (safes st))).1 = false)
    by (by rewrite E1).
  apply sweep_cells_false in H1 as (_ & H1 & Hs).
  rewrite H1 in E1. simplify_eq. cbn [snd] in *. rewrite H2 in E.
  simplify_eq. split; [done|].
  intros r Hr c Hc [Hin|Hin]%elem_of_union.
  - by apply (Hs c r); [apply elem_of_elements|..].
  - by apply (Hm c r); [apply elem_of_elements|..].
Qed.

Lemma saturate_stops fuel st st' :
  saturate fuel st = Ok st' →
  remove_empties_and_safes_and_Mines st' = Ok (false, st') ∧
  update_mines_and_safes_in_KB st' = (false, st').
Proof.
  revert st. induction fuel as [|fuel IH]; intros st; simpl; [done|].
  intros ([removed st1] & HR & Hrest)%bind_Ok.
  destruct removed; [by eapply IH|].
  destruct (update_mines_and_safes_in_KB st1) as [modified st2] eqn:HU.
  destruct modified; [by eapply IH|]. simplify_eq.
  pose proof HR as [-> _]%remove_loop_false.
  pose proof HU as [-> _]%update_mines_and_safes_in_KB_false.
  done.
Qed.

Lemma stops_settled st :
  remove_empties_and_safes_and_Mines st = Ok (false, st) →
  update_mines_and_safes_in_KB st = (false, st) →
  settled st.
Proof.
  intros [_ HR]%remove_loop_false [_ HU]%update_mines_and_safes_in_KB_false r Hr.
  rewrite Forall_forall in HR. destruct (HR r Hr) as (?&?&?).
  split_and!; auto.
Qed.

Lemma add_knowledge_stops cell count st st' :
  add_knowledge cell count st = Ok st' →
  remove_empties_and_safes_and_Mines st' = Ok (false, st') ∧
  update_mines_and_safes_in_KB st' = (false, st').
Proof.
  unfold add_knowledge. cbv zeta.
  intros (st1 & _ & (st2 & _ & Hsat)%bind_Ok)%bind_Ok.
  by apply saturate_stops in Hsat.
Qed.

Lemma add_knowledge_settled cell count st st' :
  add_knowledge cell count st = Ok st' → settled st'.
Proof. intros [HR HU]%add_knowledge_stops. by apply stops_settled. Qed.

(** X1. When [add_knowledge] returns, the knowledge base is settled: no live
    sentence is empty, has count 0 or has as many mines as cells, none
    mentions a cell already in [safes] or [mines]; running the saturation
    loop again changes nothing. *)
Theorem add_knowledge_settles (cell : Cell) (count : Z) (st st' : t) :
  add_knowledge cell count st = Ok st' →
  settled st' ∧ saturation st' = Ok st'.
Proof.
  intros Hadd. split; [by eapply add_knowledge_settled|].
  apply add_knowledge_stops in Hadd as [HR HU].
  unfold saturation. simpl. rewrite HR. simpl. by rewrite HU.
Qed.

(** The first observation on an 8x8 board. *)
Lemma add_knowledge_settles_witness :
  ∃ st', add_knowledge (0, 0) 1 (init 8 8) = Ok st' ∧ settled st'.
Proof.
  eexists. split; [vm_compute; reflexivity|].
  apply (add_knowledge_settles (0, 0) 1 (init 8 8)).
  vm_compute; reflexivity.
Defined.

(** ** The marks reach every live constraint *)
















(** Outside those states the two differ: in [stale_mine], a state that
    only writing the fields can build, the code takes the confirmed mine
    out of the constraint as if it were safe and the count stays 1. *)
Lemma stale_mine_swept_as_safe :
  update_mines_and_safes_in_KB stale_mine =
    (true, set_heap [Sentence.mk {[(0, 1)]} 1] stale_mine) ∧
  spec_update_mines_and_safes_in_KB stale_mine =
    (true, set_heap [Sentence.mk {[(0, 1)]} 0] stale_mine).
Proof. split; vm_compute; reflexivity. Qed.

(** ** Counts out of range *)



Section out_of_range.
Context (st0 : t).





End out_of_range.



(** ** The scenarios, run on the code *)

(** C1. Not every pair is compared. After [add_knowledge((0,0), 1)] and
    [add_knowledge((0,1), 1)] on an 8x8 board the knowledge base holds
    B = ({(1,0),(1,1)}, 1) and A = ({(0,2),(1,0),(1,1),(1,2)}, 1), B's cells
    a strict subset of A's; the pair loop starts at [i = 1], [j = 2], the
    values the neighbour scan left, so (A.cells − B.cells, A.count − B.count)
    is never added and (0,2), (1,2) are not marked safe. Both calls are
    observations of [edge_board]. *)
Theorem expansion_skips_subset_pair :
  ∃ st A B,
    observes edge_board (0, 0) 1 ∧ observes edge_board (0, 1) 1 ∧
    run [((0, 0), 1); ((0, 1), 1)] (init 8 8) = Ok st ∧
    live st = [B; A] ∧
    A = Sentence.mk {[(0, 2); (1, 0); (1, 1); (1, 2)]} 1 ∧
    B = Sentence.mk {[(1, 0); (1, 1)]} 1 ∧
    Sentence.cells B ⊂ Sentence.cells A ∧
    (Sentence.mk (Sentence.cells A ∖ Sentence.cells B)
                 (Sentence.count A - Sentence.count B) ∉ live st) ∧
    ((0, 2) ∉ safes st) ∧ ((1, 2) ∉ safes st).
Proof.
  eexists _, _, _.
  split; [split_and!; vm_compute; reflexivity|].
  split; [split_and!; vm_compute; reflexivity|].
  split; [vm_compute; reflexivity|].
  split; [vm_compute; reflexivity|].
  split; [vm_compute; reflexivity|].
  split; [vm_compute; reflexivity|].
  split; [compute_done|].
  split; [compute_done|].
  split; compute_done.
Qed.

(** For contrast: the same two observations in the other order, after one
    more sentence has taken index 0, put the pair at the indices the loop
    starts from; then the difference is derived and (0,2), (1,2) become
    safe. *)
Lemma expansion_derives_when_compared :
  ∃ st,
    observes edge_board (7, 7) 1 ∧
    run [((7, 7), 1); ((0, 1), 1); ((0, 0), 1)] (init 8 8) = Ok st ∧
    (0, 2) ∈ safes st ∧ (1, 2) ∈ safes st.
Proof.
  eexists.
  split; [split_and!; vm_compute; reflexivity|].
  split; [vm_compute; reflexivity|].
  split; compute_done.
Qed.

(** C3 fails for calls that no board could answer: after
    [add_knowledge((0,0), 0)] and [add_knowledge((0,2), 2)] on a 2x3 board
    the constraint ({(1,2)}, 2) is live. *)
Lemma count_out_of_range_after_calls :
  ∃ st, informed 2 3 st ∧ ¬ Forall count_in_range (live st).
Proof.
  eexists. split.
  - eapply (informed_add _ _ _ (0, 2) 2).
    + eapply (informed_add _ _ _ (0, 0) 0); [apply informed_init|].
      vm_compute; reflexivity.
    + vm_compute; reflexivity.
  - compute_done.
Qed.

(** C4 fails for calls that contradict each other: [mark_safe] then
    [mark_mine] on one cell, or, with [add_knowledge] alone, "no mine next
    to (0,0)" then "one mine next to (0,2)" on a 1x3 board, which makes
    (0,1) safe and then a mine. *)
Lemma mines_meet_safes_after_calls :
  (∃ st, driven 3 3 st ∧ mines st ∩ safes st ≠ ∅) ∧
  (∃ st, driven 1 3 st ∧ run [((0, 0), 0); ((0, 2), 1)] (init 1 3) = Ok st ∧
         (0, 1) ∈ mines st ∩ safes st).
Proof.
  split.
  - exists (mark_mine (0, 0) (mark_safe (0, 0) (init 3 3))). split.
    + apply driven_mark_mine, driven_mark_safe, driven_init.
    + compute_done.
  - eexists. split_and!.
    + eapply (driven_add _ _ _ (0, 2) 1).
      * eapply (driven_add _ _ _ (0, 0) 0); [apply driven_init|].
        vm_compute; reflexivity.
      * vm_compute; reflexivity.
    + vm_compute; reflexivity.
    + compute_done.
Qed.

(** C5 fails for the cells that are not neighbours of (2,2): (0,1) is not
    in [safes] after the call. *)
Lemma corner_reveal_leaves_cells_unknown :
  ∃ st, add_knowledge (2, 2) 0 (init 3 3) = Ok st ∧
        ¬ (∀ c, in_bounds st c = true → c ≠ (0, 0) → c ∈ safes st).
Proof.
  eexists. split; [vm_compute; reflexivity|].
  intros H. specialize (H (0, 1)).
  revert H. compute_done.
Qed.


(** ** The two passes of the saturation loop *)

Lemma remove_loop_sublist st0 snapshot any st b st' :
  knowledge st `sublist_of` knowledge st0 →
  remove_loop snapshot any st = Ok (b, st') →
  knowledge st' `sublist_of` knowledge st0.
Proof.
  apply (remove_loop_inv (λ s, knowledge s `sublist_of` knowledge st0)
           (λ _, True) (λ _, True)); try done.
  intros s q Hs. simpl. etrans; [apply sublist_delete|done].
Qed.

Lemma remove_loop_keeps st0 snapshot any st b st' :
  keeps st0 st → remove_loop snapshot any st = Ok (b, st') → keeps st0 st'.
Proof.
  apply (remove_loop_inv (keeps st0) (λ _, True) (λ _, True)); try done.
  all: intros s c (?&?&?&?&?) _; repeat split; simpl; try done; set_solver.
Qed.

(** X2. [remove_empties_and_safes_and_Mines] never raises. It returns
    [False] exactly when it leaves the player as it was, and then no live
    sentence is empty, all safe or all mines. It never touches
    [moves_made], never takes a cell out of [mines] or [safes], and only
    drops sentences. *)
Theorem remove_pass_reports_change (st : t) :
  ∃ b st',
    remove_empties_and_safes_and_Mines st = Ok (b, st') ∧
    (b = false ↔ st' = st) ∧
    (b = false → Forall (idle st) (knowledge st)) ∧
    keeps st st' ∧
    knowledge st' `sublist_of` knowledge st.
Proof.
  destruct (remove_loop_total (knowledge st) false st) as (b & st' & HR & Hw);
    [done|].
  exists b, st'. unfold remove_empties_and_safes_and_Mines.
  split; [done|]. split_and!.
  - split.
    + intros ->. by apply remove_loop_false in HR as [-> _].
    + intros ->. destruct b; [|done]. simpl in Hw. lia.
  - intros ->. by apply remove_loop_false in HR as [_ ?].
  - eapply remove_loop_keeps; [apply keeps_refl|done].
  - by eapply (remove_loop_sublist st).
Qed.

Lemma update_frame st : same_frame st (update_mines_and_safes_in_KB st).2.
Proof.
  by apply (update_mines_and_safes_in_KB_inv
              (λ _, True) (λ _, True) (λ _, True)).
Qed.

Lemma sweep_cells_frame l acc :
  l ⊆ elements (safes acc.2 ∪ mines acc.2) →
  same_frame acc.2 (foldl sweep_cell acc l).2.
Proof.
  intros Hl.
  by apply (sweep_cells_inv (λ _, True) (λ _, True) (λ _, True)).
Qed.

Lemma sweep_step_cells c acc r r' :
  Sentence.cells (deref (sweep_step c acc r).2 r')
  = if decide (r = r') then Sentence.cells (deref acc.2 r') ∖ {[c]}
    else Sentence.cells (deref acc.2 r').
Proof.
  destruct acc as [any st]. simpl.
  rewrite deref_alter by apply mark_safe_dummy.
  case_decide; [apply mark_safe_cells|done].
Qed.

Lemma sweep_refs_cells c refs acc r' :
  Sentence.cells (deref (foldl (sweep_step c) acc refs).2 r')
  = if decide (r' ∈ refs) then Sentence.cells (deref acc.2 r') ∖ {[c]}
    else Sentence.cells (deref acc.2 r').
Proof.
  revert acc. induction refs as [|r refs IH]; intros acc; cbn [foldl].
  - by rewrite decide_False by apply not_elem_of_nil.
  - rewrite IH, sweep_step_cells.
    repeat case_decide; set_solver.
Qed.

Lemma sweep_cells_cells l acc r' :
  r' ∈ knowledge acc.2 →
  Sentence.cells (deref (foldl sweep_cell acc l).2 r')
  = Sentence.cells (deref acc.2 r') ∖ list_to_set l ∧
  knowledge (foldl sweep_cell acc l).2 = knowledge acc.2.
Proof.
  revert acc. induction l as [|c l IH]; intros acc Hr; cbn [foldl].
  - split; [set_solver|done].
  - destruct (sweep_refs_weight c (knowledge acc.2) acc) as [_ Hk]; [done|].
    fold (sweep_cell acc c) in Hk.
    destruct (IH (sweep_cell acc c)) as [-> ->]; [by rewrite Hk|].
    split; [|done]. unfold sweep_cell at 1.
    rewrite sweep_refs_cells, decide_True by done. set_solver.
Qed.

(** X3. What [update_mines_and_safes_in_KB] does in any state: it takes
    exactly the cells of [safes] and [mines] out of every live sentence and
    changes nothing else, no set of the player, not the list of sentences
    and no count (both loops call [Sentence.mark_safe]; in the states the
    methods build no live sentence holds a cell of [mines], see C2). It
    returns [False] exactly when it leaves the player as it was. *)
Theorem update_pass_removes_known_cells (st : t) :
  same_frame st (update_mines_and_safes_in_KB st).2 ∧
  ((update_mines_and_safes_in_KB st).1 = false ↔
   (update_mines_and_safes_in_KB st).2 = st) ∧
  ∀ r, r ∈ knowledge st →
    Sentence.cells (deref (update_mines_and_safes_in_KB st).2 r)
    = Sentence.cells (deref st r) ∖ (safes st ∪ mines st) ∧
    Sentence.count (deref (update_mines_and_safes_in_KB st).2 r)
    = Sentence.count (deref st r).
Proof.
  split; [apply update_frame|]. split.
  - split.
    + destruct (update_mines_and_safes_in_KB st) as [b st'] eqn:E. simpl.
      intros ->. by apply update_mines_and_safes_in_KB_false in E as [-> _].
    + intros E. pose proof (update_mines_and_safes_in_KB_weight st) as Hw.
      rewrite E in Hw. destruct (update_mines_and_safes_in_KB st).1; [|done].
      simpl in Hw. lia.
  - intros r Hr. split; [|apply update_mines_and_safes_in_KB_count].
    unfold update_mines_and_safes_in_KB. cbv zeta.
    destruct (sweep_cells_cells (elements (safes st)) (false, st) r Hr)
      as [Hc1 Hk1].
    destruct (sweep_cells_cells
                (elements (mines (foldl sweep_cell (false, st) (elements (safes st))).2))
                (foldl sweep_cell (false, st) (elements (safes st))) r)
      as [Hc2 _]; [by rewrite Hk1|].
    rewrite Hc2, Hc1.
    destruct (sweep_cells_frame (elements (safes st)) (false, st))
      as (_&_&_&Hm&_); [simpl; set_solver|]. simpl in Hm. rewrite Hm. simpl.
    apply set_eq. intros c.
    rewrite !elem_of_difference, !elem_of_list_to_set, !elem_of_elements,
      elem_of_union. tauto.
Qed.

(** ** What every run keeps *)

Lemma settled_cleared st r :
  settled st → r ∈ knowledge st →
  Sentence.cells (deref st r) ## safes st ∪ mines st.
Proof. intros H Hr. by destruct (H r Hr) as (_&_&_&?). Qed.

Lemma informed_settled h w st : informed h w st → settled st.
Proof.
  destruct 1 as [|st cell count st' _ Hadd].
  - intros r Hr. by apply elem_of_nil in Hr.
  - by eapply add_knowledge_settled.
Qed.

Lemma driven_frame h w st :
  driven h w st →
  height st = h ∧ width st = w ∧ moves_made st ⊆ safes st.
Proof.
  induction 1 as [|st cell count st' _ IH Hadd|st cell _ IH|st cell _ IH].
  - done.
  - destruct IH as (Hh & Hw & Hm).
    apply add_knowledge_keeps in Hadd as (Hh' & Hw' & Hm' & _ & Hs').
    destruct (record_move_fields cell count st) as (E1 & E2 & E3 & _ & E5).
    rewrite Hh', Hw', Hm', E1, E2, E3. split; [done|]. split; [done|].
    rewrite E5 in Hs'. set_solver.
  - destruct IH as (?&?&?). by repeat split.
  - destruct IH as (?&?&?). repeat split; simpl; try done. set_solver.
Qed.

Lemma driven_cleared h w st r :
  driven h w st → r ∈ knowledge st →
  Sentence.cells (deref st r) ## safes st ∪ mines st.
Proof.
  intros Hd. revert r.
  induction Hd as [|st cell count st' _ IH Hadd|st cell _ IH|st cell _ IH];
    intros r Hr.
  - by apply elem_of_nil in Hr.
  - apply add_knowledge_settled in Hadd. by apply settled_cleared.
  - rewrite deref_mark_mine, decide_True by done. rewrite mark_mine_cells.
    specialize (IH r Hr). simpl. set_solver.
  - rewrite deref_mark_safe, decide_True by done. rewrite mark_safe_cells.
    specialize (IH r Hr). simpl. set_solver.
Qed.

(** X4. In every state built from a new [MinesweeperAI(h, w)] with
    [add_knowledge], [mark_mine] and [mark_safe], whatever their arguments:
    the dimensions are the initial ones, every move made is in [safes], and
    no live sentence mentions a cell of [safes] or [mines]. *)
Theorem driven_invariants (h w : Z) (st : t) :
  driven h w st →
  height st = h ∧ width st = w ∧
  moves_made st ⊆ safes st ∧
  ∀ s, s ∈ live st → Sentence.cells s ## safes st ∪ mines st.
Proof.
  intros Hd. destruct (driven_frame h w st Hd) as (?&?&?).
  split_and!; try done.
  intros s (r & -> & Hr)%list_elem_of_fmap. by eapply driven_cleared.
Qed.

(** A flag, then an observation. *)
Lemma driven_invariants_witness :
  ∃ st, add_knowledge (1, 1) 1 (mark_mine (0, 0) (init 3 3)) = Ok st ∧
        moves_made st ⊆ safes st.
Proof.
  eexists. split; [vm_compute; reflexivity|].
  refine (proj1 (proj2 (proj2 (driven_invariants 3 3 _ _)))).
  eapply (driven_add _ _ (mark_mine (0, 0) (init 3 3)) (1, 1) 1).
  - apply driven_mark_mine, driven_init.
  - vm_compute; reflexivity.
Defined.

Lemma update_all_fixed (f : Sentence.t → Sentence.t) refs h :
  (∀ r s, r ∈ refs → h !! r = Some s → f s = s) → update_all f refs h = h.
Proof.
  revert h. induction refs as [|r refs IH]; intros h H; simpl; [done|].
  rewrite list_alter_fixed.
  - apply IH. intros r' s Hr' Hs. apply (H r' s); [by right|done].
  - intros s Hs. apply (H r s); [by left|done].
Qed.

(** X5. Marking a cell that is already known changes nothing, in every state
    built with [add_knowledge], [mark_mine] and [mark_safe]: [mark_safe] on
    a cell of [safes] and [mark_mine] on a cell of [mines] return the state
    they were given. *)
Theorem remark_is_noop (h w : Z) (st : t) (c : Cell) :
  driven h w st →
  (c ∈ safes st → mark_safe c st = st) ∧
  (c ∈ mines st → mark_mine c st = st).
Proof.
  intros Hd. split; intros Hc.
  - unfold mark_safe, set_safes, set_heap. simpl.
    rewrite update_all_fixed.
    + replace ({[c]} ∪ safes st) with (safes st) by set_solver. by destruct st.
    + intros r s Hr Hs. apply mark_safe_absent.
      pose proof (driven_cleared h w st r Hd Hr) as Hdisj.
      unfold deref in Hdisj. rewrite Hs in Hdisj. simpl in Hdisj. set_solver.
  - unfold mark_mine, set_mines, set_heap. simpl.
    rewrite update_all_fixed.
    + replace ({[c]} ∪ mines st) with (mines st) by set_solver. by destruct st.
    + intros r s Hr Hs.
      pose proof (driven_cleared h w st r Hd Hr) as Hdisj.
      unfold deref in Hdisj. rewrite Hs in Hdisj. simpl in Hdisj.
      unfold Sentence.mark_mine. rewrite decide_False; [done|set_solver].
Qed.

(** Marking the revealed cell safe again after the first observation. *)
Lemma remark_is_noop_witness :
  ∃ st, add_knowledge (0, 0) 1 (init 8 8) = Ok st ∧ mark_safe (0, 0) st = st.
Proof.
  eexists. split; [vm_compute; reflexivity|].
  refine (proj1 (remark_is_noop 8 8 _ (0, 0) _) _).
  - eapply (driven_add _ _ _ (0, 0) 1); [apply driven_init|].
    vm_compute; reflexivity.
  - compute_done.
Defined.

(** ** The order of the marks *)

Lemma sentence_eq_fields (a b : Sentence.t) :
  Sentence.cells a = Sentence.cells b → Sentence.count a = Sentence.count b →
  a = b.
Proof. destruct a, b. simpl. by intros -> ->. Qed.

Lemma mark_mine_count c s :
  Sentence.count (Sentence.mark_mine c s)
  = Sentence.count s - (if decide (c ∈ Sentence.cells s) then 1 else 0).
Proof. unfold Sentence.mark_mine. case_decide; simpl; lia. Qed.

Lemma Sentence_mark_mine_comm c d s :
  Sentence.mark_mine c (Sentence.mark_mine d s)
  = Sentence.mark_mine d (Sentence.mark_mine c s).
Proof.
  destruct (decide (c = d)) as [->|Hne]; [done|].
  apply sentence_eq_fields.
  - rewrite !mark_mine_cells. set_solver.
  - rewrite !mark_mine_count, !mark_mine_cells.
    repeat case_decide; try lia; set_solver.
Qed.

Lemma Sentence_mark_safe_comm c d s :
  Sentence.mark_safe c (Sentence.mark_safe d s)
  = Sentence.mark_safe d (Sentence.mark_safe c s).
Proof.
  apply sentence_eq_fields.
  - rewrite !mark_safe_cells. set_solver.
  - by rewrite !mark_safe_count.
Qed.

Lemma Sentence_mark_mine_safe_comm c d s :
  c ≠ d →
  Sentence.mark_mine c (Sentence.mark_safe d s)
  = Sentence.mark_safe d (Sentence.mark_mine c s).
Proof.
  intros Hne. apply sentence_eq_fields.
  - rewrite mark_mine_cells, !mark_safe_cells, mark_mine_cells. set_solver.
  - rewrite mark_mine_count, !mark_safe_count, mark_mine_count, mark_safe_cells.
    repeat case_decide; try lia; set_solver.
Qed.

Lemma update_all_comm (f g : Sentence.t → Sentence.t) refs h :
  (∀ s, f (f s) = f s) → (∀ s, g (g s) = g s) → (∀ s, f (g s) = g (f s)) →
  update_all f refs (update_all g refs h)
  = update_all g refs (update_all f refs h).
Proof.
  intros Hf Hg Hfg. apply list_eq. intros r.
  rewrite !lookup_update_all by done.
  case_decide; [|done]. destruct (h !! r); simpl; [|done]. by rewrite Hfg.
Qed.

(** X6. Marks on different cells can be made in any order: two [mark_mine],
    two [mark_safe], or a [mark_mine] and a [mark_safe] on distinct cells
    lead to the same player and the same sentences. On one and the same
    cell the first mark decides: the second one changes no sentence. *)
Theorem marks_commute (c d : Cell) (st : t) :
  mark_mine c (mark_mine d st) = mark_mine d (mark_mine c st) ∧
  mark_safe c (mark_safe d st) = mark_safe d (mark_safe c st) ∧
  (c ≠ d → mark_mine c (mark_safe d st) = mark_safe d (mark_mine c st)) ∧
  heap (mark_mine c (mark_safe c st)) = heap (mark_safe c st) ∧
  heap (mark_safe c (mark_mine c st)) = heap (mark_mine c st).
Proof.
  split_and!.
  - unfold mark_mine, set_mines, set_heap. simpl. f_equal; [set_solver|].
    apply update_all_comm;
      auto using Sentence_mark_mine_idem, Sentence_mark_mine_comm.
  - unfold mark_safe, set_safes, set_heap. simpl. f_equal; [set_solver|].
    apply update_all_comm;
      auto using Sentence_mark_safe_idem, Sentence_mark_safe_comm.
  - intros Hne. unfold mark_mine, mark_safe, set_mines, set_safes, set_heap.
    simpl. f_equal.
    apply update_all_comm;
      auto using Sentence_mark_mine_idem, Sentence_mark_safe_idem,
        Sentence_mark_mine_safe_comm.
  - unfold mark_mine, mark_safe, set_mines, set_safes, set_heap. simpl.
    apply list_eq. intros r.
    rewrite !lookup_update_all
      by auto using Sentence_mark_mine_idem, Sentence_mark_safe_idem.
    case_decide; [|done]. destruct (heap st !! r) as [s|]; simpl; [|done].
    f_equal. unfold Sentence.mark_mine.
    rewrite decide_False; [done|]. rewrite mark_safe_cells. set_solver.
  - unfold mark_mine, mark_safe, set_mines, set_safes, set_heap. simpl.
    apply list_eq. intros r.
    rewrite !lookup_update_all
      by auto using Sentence_mark_mine_idem, Sentence_mark_safe_idem.
    case_decide; [|done]. destruct (heap st !! r) as [s|]; simpl; [|done].
    f_equal. apply mark_safe_absent. rewrite mark_mine_cells. set_solver.
Qed.

(** Two distinct cells of a 2x2 board. *)
Lemma marks_commute_witness :
  mark_mine (0, 0) (mark_safe (1, 1) (init 2 2))
  = mark_safe (1, 1) (mark_mine (0, 0) (init 2 2)).
Proof.
  refine (proj1 (proj2 (proj2 (marks_commute (0, 0) (1, 1) (init 2 2)))) _).
  intros [=].
Defined.

(** ** What the player believes *)

(** X7. When every call agrees with one board, the player is never wrong:
    every cell of [mines] holds a mine, no cell of [safes] does, and every
    live sentence gives the true number of mines among its cells. *)
Theorem beliefs_true_when_played (g : Minesweeper.t) (st : t) :
  played g st →
  (∀ c, c ∈ mines st → mined g c) ∧
  (∀ c, c ∈ safes st → ¬ mined g c) ∧
  Forall (truthful g) (live st).
Proof.
  intros Hs%played_sound. split_and!.
  - apply (sound_mines _ _ Hs).
  - apply (sound_safes _ _ Hs).
  - unfold live. apply Forall_fmap, Forall_forall. intros r _.
    by apply sound_truthful.
Qed.

(** Three observations of [edge_board] find its mine at (1,0). *)
Lemma beliefs_true_when_played_witness :
  ∃ st, run [((0, 0), 1); ((0, 1), 1); ((0, 2), 0)] (init 8 8) = Ok st ∧
        (1, 0) ∈ mines st ∧ mined edge_board (1, 0).
Proof.
  eexists. split; [vm_compute; reflexivity|].
  match goal with
  | |- _ ∈ mines ?s ∧ _ =>
      assert (Hp : played edge_board s); [|split; [compute_done|]]
  end.
  - eapply (played_add _ _ (0, 2) 0).
    + eapply (played_add _ _ (0, 1) 1).
      * eapply (played_add _ (init 8 8) (0, 0) 1).
        -- exact (played_init edge_board).
        -- split_and!; vm_compute; reflexivity.
        -- vm_compute; reflexivity.
      * split_and!; vm_compute; reflexivity.
      * vm_compute; reflexivity.
    + split_and!; vm_compute; reflexivity.
    + vm_compute; reflexivity.
  - apply (proj1 (beliefs_true_when_played edge_board _ Hp) (1, 0)).
    compute_done.
Defined.

(** ** Neighbours *)

Lemma elem_of_block (cell c : Cell) :
  c ∈ Minesweeper.block cell ↔
  cell.1 - 1 ≤ c.1 ≤ cell.1 + 1 ∧ cell.2 - 1 ≤ c.2 ≤ cell.2 + 1.
Proof.
  unfold Minesweeper.block. rewrite list_elem_of_bind. split.
  - intros (i & (j & ->%list_elem_of_singleton & Hj%elem_of_range)%list_elem_of_bind
              & Hi%elem_of_range).
    simpl. lia.
  - intros [Hi Hj]. exists c.1. split; [|apply elem_of_range; lia].
    apply list_elem_of_bind. exists c.2. split; [|apply elem_of_range; lia].
    destruct c. simpl. by apply list_elem_of_singleton.
Qed.

Lemma elem_of_neighbours h w cell c :
  c ∈ neighbours h w cell ↔
  c ≠ cell ∧ on_board h w c ∧
  cell.1 - 1 ≤ c.1 ≤ cell.1 + 1 ∧ cell.2 - 1 ≤ c.2 ≤ cell.2 + 1.
Proof.
  unfold neighbours.
  rewrite elem_of_list_to_set, list_elem_of_filter, elem_of_block. tauto.
Qed.

Lemma in_bounds_on_board st c :
  in_bounds st c = true ↔ on_board (height st) (width st) c.
Proof. apply in_bounds_spec. Qed.

Lemma board_in_bounds g c :
  Minesweeper.in_bounds g c = true
  ↔ on_board (Minesweeper.height g) (Minesweeper.width g) c.
Proof.
  unfold Minesweeper.in_bounds, on_board.
  rewrite andb_true_iff, !bool_decide_eq_true. done.
Qed.

Lemma size_block cell : length (Minesweeper.block cell) = 9%nat.
Proof. by rewrite block_cells. Qed.

Lemma size_neighbours h w cell : (size (neighbours h w cell) ≤ 8)%nat.
Proof.
  assert (Hsub : neighbours h w cell
                 ⊆ list_to_set (Minesweeper.block cell) ∖ {[cell]}).
  { intros c (Hne & _ & Hc)%elem_of_neighbours.
    apply elem_of_difference. split; [|set_solver].
    apply elem_of_list_to_set, elem_of_block. done. }
  apply subseteq_size in Hsub.
  rewrite size_difference in Hsub.
  - rewrite size_list_to_set, size_block, size_singleton in Hsub
      by apply NoDup_block. lia.
  - apply singleton_subseteq_l, elem_of_list_to_set, elem_of_block. lia.
Qed.

(** ** The sentence that [add_knowledge] builds *)

Lemma scan_fold_sets st cell l N k :
  foldl (scan_step st cell) (N, k) l =
  (N ∪ list_to_set
         (filter (λ c, c ≠ cell ∧ on_board (height st) (width st) c ∧
                       c ∉ mines st ∪ moves_made st) l),
   k - Z.of_nat
         (length (filter (λ c, c ≠ cell ∧ on_board (height st) (width st) c ∧
                               c ∈ mines st) l))).
Proof.
  revert N k. induction l as [|x l IH]; intros N k; cbn [foldl].
  - simpl. f_equal; [set_solver|lia].
  - destruct (scan_step st cell (N, k) x) as [N1 k1] eqn:E.
    rewrite IH. unfold scan_step in E. simpl in E. rewrite !filter_cons.
    destruct (decide (x = cell)) as [->|Hne].
    { rewrite !decide_False by tauto. by simplify_eq. }
    destruct (in_bounds st x) eqn:Hb.
    + apply in_bounds_on_board in Hb.
      destruct (decide (x ∈ mines st)) as [Hm|Hm].
      * rewrite (decide_False (P := (x ∉ mines st) ∧ (x ∉ moves_made st))) in E
          by tauto.
        simplify_eq.
        rewrite (decide_False (P := _ ∧ _ ∧ (x ∉ _))) by set_solver.
        rewrite (decide_True (P := _ ∧ _ ∧ (x ∈ _))) by done.
        simpl. f_equal. lia.
      * rewrite (decide_False (P := _ ∧ _ ∧ (x ∈ _))) by tauto.
        destruct (decide (x ∈ moves_made st)) as [Hv|Hv].
        -- rewrite (decide_False (P := (x ∉ mines st) ∧ (x ∉ moves_made st))) in E
             by tauto.
           simplify_eq.
           rewrite (decide_False (P := _ ∧ _ ∧ (x ∉ _))) by set_solver.
           done.
        -- rewrite (decide_True (P := (x ∉ mines st) ∧ (x ∉ moves_made st))) in E
             by done.
           simplify_eq.
           rewrite (decide_True (P := _ ∧ _ ∧ (x ∉ _))) by set_solver.
           simpl. f_equal. set_solver.
    + assert (¬ on_board (height st) (width st) x).
      { rewrite <- in_bounds_on_board. by rewrite Hb. }
      rewrite !decide_False by tauto. by simplify_eq.
Qed.

Lemma elem_of_scan st cell count c :
  c ∈ (scan st cell count).1 ↔
  c ∈ neighbours (height st) (width st) cell ∧ (c ∉ mines st) ∧
  (c ∉ moves_made st).
Proof.
  unfold scan. rewrite scan_fold_sets. simpl.
  rewrite elem_of_union, elem_of_list_to_set, list_elem_of_filter,
    elem_of_neighbours, elem_of_block, not_elem_of_union.
  set_solver.
Qed.

Lemma scan_cells_on_board st cell count c :
  c ∈ (scan st cell count).1 → on_board (height st) (width st) c.
Proof. rewrite elem_of_scan, elem_of_neighbours. tauto. Qed.

(** X8. The sentence [add_knowledge] builds for a revealed cell: its cells
    are the neighbours of the cell on the board that are neither known
    mines nor moves already made, and its count is the reported count minus
    the number of neighbours that are known mines. *)
Theorem new_sentence_about_neighbours (st : t) (cell : Cell) (count : Z) :
  (scan st cell count).1
  = neighbours (height st) (width st) cell ∖ mines st ∖ moves_made st ∧
  (scan st cell count).2
  = count - Z.of_nat (size (neighbours (height st) (width st) cell ∩ mines st)).
Proof.
  unfold scan. rewrite scan_fold_sets. simpl. split.
  - apply set_eq. intros c.
    rewrite elem_of_union, elem_of_list_to_set, list_elem_of_filter,
      !elem_of_difference, elem_of_neighbours, elem_of_block, not_elem_of_union.
    set_solver.
  - do 2 f_equal.
    etrans; [symmetry; apply (size_list_to_set (C := gset Cell)),
                         NoDup_filter, NoDup_block|].
    f_equal. apply set_eq. intros c.
    rewrite elem_of_list_to_set, list_elem_of_filter, elem_of_intersection,
      elem_of_neighbours, elem_of_block. tauto.
Qed.

(** ** The board *)

Lemma py_index_wrap {A} (l : list A) (i : Z) :
  - Z.of_nat (length l) ≤ i < 0 →
  py_index l i = py_index l (Z.of_nat (length l) + i).
Proof.
  intros Hi. unfold py_index.
  rewrite (decide_False (P := 0 ≤ i)) by lia.
  rewrite (decide_True (P := 0 ≤ Z.of_nat (length l) + i)) by lia.
  by rewrite (decide_True (P := 0 ≤ Z.of_nat (length l) + i)) by lia.
Qed.

Lemma py_index_out {A} (l : list A) (i : Z) :
  Z.of_nat (length l) ≤ i ∨ i < - Z.of_nat (length l) →
  py_index l i = IndexError.
Proof.
  intros Hi. unfold py_index. case_decide.
  - rewrite (proj2 (lookup_ge_None l (Z.to_nat i))); [done|lia].
  - rewrite decide_False by lia. done.
Qed.

Lemma nearby_fold_count g cell l n :
  Minesweeper.wf g →
  foldl (Minesweeper.nearby_step g cell) (Ok n) l =
  Ok (n + Z.of_nat
            (length
               (filter (λ c, c ≠ cell ∧
                             on_board (Minesweeper.height g) (Minesweeper.width g) c ∧
                             mined g c) l))).
Proof.
  intros Hwf. revert n. induction l as [|x l IH]; intros n; cbn [foldl].
  - simpl. f_equal. lia.
  - rewrite filter_cons.
    unfold Minesweeper.nearby_step at 2. simpl.
    destruct (decide (x = cell)) as [->|Hne].
    { rewrite decide_False by tauto. apply IH. }
    destruct (Minesweeper.in_bounds g x) eqn:Hb.
    + destruct (is_mine_total g x Hwf Hb) as [b Hm]. rewrite Hm. simpl.
      rewrite IH. f_equal. apply board_in_bounds in Hb.
      destruct b.
      * rewrite decide_True by done. simpl. lia.
      * rewrite decide_False; [done|]. unfold mined. rewrite Hm.
        intros (_ & _ & [=]).
    + assert (¬ on_board (Minesweeper.height g) (Minesweeper.width g) x).
      { rewrite <- board_in_bounds. by rewrite Hb. }
      rewrite decide_False by tauto. apply IH.
Qed.

Lemma nearby_mines_among g cell :
  Minesweeper.wf g →
  Minesweeper.nearby_mines g cell
  = Ok (mines_among g
          (neighbours (Minesweeper.height g) (Minesweeper.width g) cell)).
Proof.
  intros Hwf. unfold Minesweeper.nearby_mines. rewrite nearby_fold_count by done.
  f_equal. unfold mines_among. rewrite Z.add_0_l. f_equal.
  etrans; [symmetry; apply (size_list_to_set (C := gset Cell)),
                       NoDup_filter, NoDup_block|].
  f_equal. apply set_eq. intros c.
  rewrite elem_of_list_to_set, list_elem_of_filter, elem_of_filter,
    elem_of_neighbours, elem_of_block. tauto.
Qed.

(** X9. On a board as [__init__] builds it, [nearby_mines] raises nothing
    and returns the number of mines among the neighbours of the cell that
    lie on the board, the cell itself not counted; the result is between 0
    and 8. *)
Theorem nearby_mines_counts_neighbours (g : Minesweeper.t) (cell : Cell) :
  Minesweeper.wf g →
  Minesweeper.nearby_mines g cell
  = Ok (mines_among g
          (neighbours (Minesweeper.height g) (Minesweeper.width g) cell)) ∧
  0 ≤ mines_among g
        (neighbours (Minesweeper.height g) (Minesweeper.width g) cell) ≤ 8.
Proof.
  intros Hwf. split; [by apply nearby_mines_among|].
  unfold mines_among.
  pose proof (size_neighbours (Minesweeper.height g) (Minesweeper.width g) cell).
  assert (size (filter (mined g)
                  (neighbours (Minesweeper.height g) (Minesweeper.width g) cell))
          ≤ size (neighbours (Minesweeper.height g) (Minesweeper.width g) cell))%nat.
  { apply subseteq_size. intros c. rewrite elem_of_filter. tauto. }
  lia.
Qed.

(** The centre of the 3x3 board with its mine in the corner. *)
Lemma nearby_mines_counts_neighbours_witness :
  Minesweeper.nearby_mines corner_board (1, 1)
  = Ok (mines_among corner_board (neighbours 3 3 (1, 1))).
Proof.
  apply (nearby_mines_counts_neighbours corner_board (1, 1)).
  compute_done.
Defined.

(** X10. [is_mine] checks no bounds itself. On a board as [__init__] builds
    it, a cell of the board gives an answer; a row index [>= height] or
    [< -height], or a column index [>= width] or [< -width], raises
    [IndexError]; a negative index down to [-height] (or [-width]) reads
    the cell counted from the far edge. *)
Theorem is_mine_edges (g : Minesweeper.t) (i j : Z) :
  Minesweeper.wf g →
  let h := Minesweeper.height g in
  let w := Minesweeper.width g in
  (0 ≤ i < h → 0 ≤ j < w → ∃ b, Minesweeper.is_mine g (i, j) = Ok b) ∧
  (h ≤ i ∨ i < - h → Minesweeper.is_mine g (i, j) = IndexError) ∧
  (- h ≤ i < h → w ≤ j ∨ j < - w → Minesweeper.is_mine g (i, j) = IndexError) ∧
  (- h ≤ i < 0 → Minesweeper.is_mine g (i, j) = Minesweeper.is_mine g (h + i, j)) ∧
  (- h ≤ i < h → - w ≤ j < 0 →
   Minesweeper.is_mine g (i, j) = Minesweeper.is_mine g (i, w + j)).
Proof.
  intros Hwf h w. pose proof Hwf as (Hh & Hw & Hlen & Hrows).
  assert (Hlen' : Z.of_nat (length (Minesweeper.board g)) = h) by (subst h; lia).
  assert (Hrow : ∀ i, - h ≤ i < h →
            ∃ row, py_index (Minesweeper.board g) i = Ok row ∧
                   Z.of_nat (length row) = w).
  { intros i' Hi'.
    assert (∃ row, py_index (Minesweeper.board g) i' = Ok row
                   ∧ row ∈ Minesweeper.board g) as (row & Hr & Hin).
    { destruct (decide (0 ≤ i')).
      - apply py_index_in_range. lia.
      - rewrite py_index_wrap by lia. apply py_index_in_range. lia. }
    exists row. split; [done|].
    rewrite Forall_forall in Hrows. rewrite (Hrows row Hin). subst w. lia. }
  split_and!.
  - intros Hi Hj. apply is_mine_total; [done|].
    apply board_in_bounds. split; simpl; lia.
  - intros Hi. unfold Minesweeper.is_mine. simpl.
    rewrite py_index_out by lia. done.
  - intros Hi Hj. unfold Minesweeper.is_mine. simpl.
    destruct (Hrow i Hi) as (row & -> & Hl). simpl.
    apply py_index_out. lia.
  - intros Hi. unfold Minesweeper.is_mine. simpl.
    rewrite py_index_wrap by lia. by rewrite Hlen'.
  - intros Hi Hj. unfold Minesweeper.is_mine. simpl.
    destruct (Hrow i Hi) as (row & -> & Hl). simpl.
    rewrite py_index_wrap by lia. by rewrite Hl.
Qed.

(** The last cell of the 3x3 board, read as (-1,-1). *)
Lemma is_mine_edges_witness :
  Minesweeper.is_mine corner_board (-1, 2) = Minesweeper.is_mine corner_board (3 + -1, 2).
Proof.
  refine (proj1 (proj2 (proj2 (proj2 (is_mine_edges corner_board (-1) 2 _)))) _).
  - compute_done.
  - simpl. lia.
Defined.

(** ** Staying on the board *)

Section within_board.
Context (h w : Z).

Lemma within_board_deref st r c :
  within_board h w st → c ∈ Sentence.cells (deref st r) → on_board h w c.
Proof.
  intros (_ & _ & Hheap & _) Hc. unfold deref in Hc.
  destruct (heap st !! r) as [s|] eqn:E; simpl in Hc; [|set_solver].
  rewrite Forall_forall in Hheap. eapply Hheap; [|done].
  by eapply list_elem_of_lookup_2.
Qed.

Lemma within_board_mark_mine st c :
  within_board h w st → on_board h w c → within_board h w (mark_mine c st).
Proof.
  intros (Hh & Hw & Hheap & Hm & Hs) Hc. split_and!; simpl; try done.
  - apply Forall_update_all; [|done]. intros s Hsc x.
    rewrite mark_mine_cells. set_solver.
  - intros x [->%elem_of_singleton|Hx]%elem_of_union; auto.
Qed.

Lemma within_board_mark_safe st c :
  within_board h w st → on_board h w c → within_board h w (mark_safe c st).
Proof.
  intros (Hh & Hw & Hheap & Hm & Hs) Hc. split_and!; simpl; try done.
  - apply Forall_update_all; [|done]. intros s Hsc x.
    rewrite mark_safe_cells. set_solver.
  - intros x [->%elem_of_singleton|Hx]%elem_of_union; auto.
Qed.

Lemma within_board_add_knowledge cell count st st' :
  within_board h w st →
  add_knowledge cell count st = Ok st' → within_board h w st'.
Proof.
  intros Hwb.
  apply (add_knowledge_inv (within_board h w) (on_board h w) (on_board h w)).
  - apply within_board_mark_mine.
  - apply within_board_mark_safe.
  - intros s x c Hs Hc. apply (within_board_deref s x c Hs).
    unfold Sentence.known_mines in Hc. case_decide; set_solver.
  - intros s x c Hs Hc. apply (within_board_deref s x c Hs).
    unfold Sentence.known_safes in Hc. case_decide; set_solver.
  - intros s q (?&?&?&?&?). by split_and!.
  - intros s c r (Hh & Hw & Hheap & Hm & Hs) _ _. split_and!; simpl; try done.
    apply Forall_alter; [done|]. intros x _ Hx y.
    rewrite mark_safe_cells. set_solver.
  - intros s ki kj Hs _ _ _. pose proof Hs as (Hh & Hw & Hheap & Hm & Hsf).
    split_and!; simpl; try done.
    apply Forall_app. split; [done|]. constructor; [|done]. simpl.
    intros c [Hc _]%elem_of_difference. by eapply within_board_deref.
  - destruct Hwb as (Hh & Hw & Hheap & Hm & Hs).
    pose proof (scan_cells_on_board
                  (mark_safe cell (set_moves_made ({[cell]} ∪ moves_made st) st))
                  cell count) as Hn.
    unfold record_move. cbv zeta. destruct (scan _ _ _) as [nbrs cnt].
    simpl in Hn. split_and!; simpl; try done.
    + apply Forall_app. split.
      * apply Forall_update_all; [|done]. intros s Hsc x.
        rewrite mark_safe_cells. set_solver.
      * constructor; [|done]. simpl. intros c Hc.
        apply Hn in Hc. by rewrite Hh, Hw in Hc.
    + intros c [->%elem_of_singleton|Hc]%elem_of_union; [set_solver|].
      destruct (Hs c Hc); [by left|right; set_solver].
Qed.

Lemma informed_within_board st : informed h w st → within_board h w st.
Proof.
  induction 1 as [|st cell count st' _ IH Hadd].
  - split_and!; simpl; try done; set_solver.
  - by eapply within_board_add_knowledge.
Qed.
End within_board.

(** X11. A player that is only told observations, whatever they are, never
    talks about a cell outside its board: every cell of [mines] and of a
    live sentence is on the board, and so is every cell of [safes] that is
    not one of the moves it was told. *)
Theorem informed_stays_on_board (h w : Z) (st : t) :
  informed h w st →
  (∀ c, c ∈ mines st → on_board h w c) ∧
  (∀ s c, s ∈ live st → c ∈ Sentence.cells s → on_board h w c) ∧
  (∀ c, c ∈ safes st → on_board h w c ∨ c ∈ moves_made st).
Proof.
  intros Hwb%informed_within_board. pose proof Hwb as (_ & _ & _ & Hm & Hs).
  split_and!; try done.
  intros s c (r & -> & _)%list_elem_of_fmap Hc. by eapply within_board_deref.
Qed.

(** A move off the board is recorded as safe, nothing else is. *)
Lemma informed_stays_on_board_witness :
  ∃ st, add_knowledge (5, 5) 0 (init 3 3) = Ok st ∧
        ∀ c, c ∈ mines st → on_board 3 3 c.
Proof.
  eexists. split; [vm_compute; reflexivity|].
  refine (proj1 (informed_stays_on_board 3 3 _ _)).
  eapply (informed_add _ _ (init 3 3) (5, 5) 0); [apply informed_init|].
  vm_compute; reflexivity.
Defined.

(** ** Playing the safe move *)

Lemma make_safe_move_Some st c :
  (make_safe_move st).1 = Some c →
  c ∈ safes st ∧ (c ∉ moves_made st) ∧ (c ∉ mines st).
Proof.
  unfold make_safe_move. simpl.
  intros (l1 & x & l2 & E & _ & Hx)%for_return_Some.
  destruct (decide _) as [[Hm Hn]|]; [|done]. simplify_eq.
  split; [|done]. apply elem_of_elements. rewrite E. set_solver.
Qed.

Lemma observed_informed g st :
  observed g st → informed (Minesweeper.height g) (Minesweeper.width g) st.
Proof. induction 1; [apply informed_init|by eapply informed_add]. Qed.

Lemma observed_moves_on_board g st c :
  observed g st → c ∈ moves_made st →
  on_board (Minesweeper.height g) (Minesweeper.width g) c.
Proof.
  induction 1 as [|st cell count st' _ IH (Hb & _) Hadd]; [set_solver|].
  apply add_knowledge_keeps in Hadd as (_ & _ & Hm & _).
  destruct (record_move_fields cell count st) as (_ & _ & E & _).
  rewrite Hm, E. intros [->%elem_of_singleton|Hc]%elem_of_union; [|auto].
  by apply board_in_bounds.
Qed.

(** X12. While the player is told true observations of a board, the cell
    [make_safe_move] returns is a cell of the board that holds no mine and
    was not revealed before; revealing it is again a true observation that
    [add_knowledge] accepts. *)
Theorem safe_move_can_be_played (g : Minesweeper.t) (st : t) (c : Cell) :
  Minesweeper.wf g → observed g st →
  (make_safe_move st).1 = Some c →
  on_board (Minesweeper.height g) (Minesweeper.width g) c ∧
  ¬ mined g c ∧ (c ∉ moves_made st) ∧
  ∃ count st', observes g c count ∧ add_knowledge c count st = Ok st' ∧
               observed g st'.
Proof.
  intros Hwf Hobs (Hs & Hv & Hm)%make_safe_move_Some.
  assert (Hnm : ¬ mined g c).
  { by apply (sound_safes _ _ (played_sound _ _ (observed_played _ _ Hobs))). }
  assert (Hb : on_board (Minesweeper.height g) (Minesweeper.width g) c).
  { destruct (informed_within_board _ _ _ (observed_informed _ _ Hobs))
      as (_ & _ & _ & _ & Hsf).
    destruct (Hsf c Hs); done. }
  split_and!; try done.
  apply observed_step; try done.
  - by apply board_in_bounds.
  - apply board_in_bounds in Hb.
    destruct (is_mine_total g c Hwf Hb) as [[] Hmine]; [by destruct Hnm|done].
Qed.

(** After the corner of the 3x3 board is revealed, a neighbour is offered. *)
Lemma safe_move_can_be_played_witness :
  ∃ st c, add_knowledge (2, 2) 0 (init 3 3) = Ok st ∧
          (make_safe_move st).1 = Some c ∧ ¬ mined corner_board c.
Proof.
  eexists _, _. split; [vm_compute; reflexivity|].
  split; [vm_compute; reflexivity|].
  refine (proj1 (proj2 (safe_move_can_be_played corner_board _ _ _ _ _))).
  - compute_done.
  - eapply (observed_add corner_board (init 3 3) (2, 2) 0).
    + exact (observed_init corner_board).
    + split_and!; vm_compute; reflexivity.
    + vm_compute; reflexivity.
  - vm_compute; reflexivity.
Defined.

(** ** Laying the mines: [Minesweeper.__init__] *)

Lemma py_index_lookup {A} (l : list A) (i : Z) :
  0 ≤ i →
  py_index l i = match l !! Z.to_nat i with Some x => Ok x | None => IndexError end.
Proof. intros Hi. unfold py_index. by rewrite decide_True by done. Qed.

Lemma randrange_Ok n d i :
  MinesweeperGame.randrange n d = Ok i → 0 ≤ i < n.
Proof.
  unfold MinesweeperGame.randrange. case_decide; [|done]. intros [= <-].
  by apply Z.mod_pos_bound.
Qed.

Lemma randrange_in_range n d :
  0 ≤ d < n → MinesweeperGame.randrange n d = Ok d.
Proof.
  intros Hd. unfold MinesweeperGame.randrange.
  rewrite decide_True by lia. by rewrite Z.mod_small.
Qed.

Lemma randrange_total n d :
  0 < n → ∃ i, MinesweeperGame.randrange n d = Ok i ∧ 0 ≤ i < n.
Proof.
  intros Hn. unfold MinesweeperGame.randrange. rewrite decide_True by done.
  eexists. split; [done|]. by apply Z.mod_pos_bound.
Qed.

Lemma empty_board_lookup h w i j :
  0 ≤ i < h → 0 ≤ j < w →
  ∃ row, MinesweeperGame.empty_board h w !! Z.to_nat i = Some row ∧
         row !! Z.to_nat j = Some false.
Proof.
  intros Hi Hj. unfold MinesweeperGame.empty_board, range.
  eexists. rewrite list_lookup_fmap, lookup_seqZ_lt by lia. simpl.
  split; [done|]. by rewrite list_lookup_fmap, lookup_seqZ_lt by lia.
Qed.

Lemma laid_empty h w :
  0 ≤ h → 0 ≤ w →
  laid h w (MinesweeperGame.mk
              (Minesweeper.mk h w (MinesweeperGame.empty_board h w)) ∅ ∅).
Proof.
  intros Hh Hw. split_and!; simpl; try done.
  - split_and!; simpl; try done.
    + unfold MinesweeperGame.empty_board, range.
      rewrite length_fmap, length_seqZ. lia.
    + unfold MinesweeperGame.empty_board, range. apply Forall_fmap, Forall_forall.
      intros x _. simpl. rewrite length_fmap, length_seqZ. lia.
  - intros [i j] [Hi Hj]. simpl in *.
    destruct (empty_board_lookup h w i j) as (row & Hrow & Hc); [done..|].
    unfold Minesweeper.is_mine. simpl.
    rewrite py_index_lookup, Hrow by lia. simpl.
    rewrite py_index_lookup, Hc by lia. done.
Qed.

Lemma set_mine_laid h w i j g :
  laid h w g → on_board h w (i, j) →
  ∃ g', MinesweeperGame.set_mine i j g = Ok g' ∧ laid h w g' ∧
        MinesweeperGame.mines g' = {[(i, j)]} ∪ MinesweeperGame.mines g ∧
        MinesweeperGame.mines_found g' = MinesweeperGame.mines_found g.
Proof.
  intros (<- & <- & (Hh0 & Hw0 & Hlen & Hrows) & Hon & Hag) [Hi Hj].
  simpl in Hi, Hj.
  unfold MinesweeperGame.set_mine. cbv zeta.
  destruct (py_index_nonneg (Minesweeper.board (MinesweeperGame.grid g)) i)
    as (row & -> & Hrow); [lia|]. simpl.
  assert (Hlrow : length row
                  = Z.to_nat (Minesweeper.width (MinesweeperGame.grid g))).
  { rewrite Forall_forall in Hrows. apply Hrows.
    by eapply list_elem_of_lookup_2. }
  unfold MinesweeperGame.py_setitem.
  rewrite (decide_True (P := 0 ≤ j)), (decide_True (P := j < _)) by lia. simpl.
  rewrite (decide_True (P := 0 ≤ i)), (decide_True (P := i < _)) by lia. simpl.
  eexists. split; [done|]. split; [|done].
  split_and!; simpl; try done.
  - split_and!; simpl; try done.
    + by rewrite length_insert.
    + apply Forall_insert; [done|]. by rewrite length_insert.
  - intros c [->%elem_of_singleton|Hc]%elem_of_union; [done|auto].
  - intros [a b] [Ha Hb]. simpl in Ha, Hb.
    specialize (Hag (a, b)). unfold Minesweeper.is_mine in *. simpl in *.
    rewrite py_index_lookup in * by lia.
    destruct (decide (a = i)) as [->|Hne].
    + rewrite list_lookup_insert_eq by lia. simpl.
      rewrite Hrow in Hag. simpl in Hag. rewrite py_index_lookup in * by lia.
      destruct (decide (b = j)) as [->|Hnb].
      * rewrite list_lookup_insert_eq by lia.
        by rewrite bool_decide_eq_true_2 by set_solver.
      * rewrite list_lookup_insert_ne by lia. rewrite Hag by done.
        f_equal. apply bool_decide_ext. set_solver.
    + rewrite list_lookup_insert_ne by lia. rewrite Hag by done.
      f_equal. apply bool_decide_ext. set_solver.
Qed.

Lemma place_mines_laid h w n draws g g' :
  laid h w g →
  MinesweeperGame.place_mines h w n draws g = Ok g' →
  laid h w g' ∧ Z.of_nat (size (MinesweeperGame.mines g')) = n ∧
  MinesweeperGame.mines_found g' = MinesweeperGame.mines_found g.
Proof.
  revert g. induction draws as [|[di dj] draws IH]; intros g Hl; simpl.
  - case_decide; [|done]. by intros [= <-].
  - case_decide; [by intros [= <-]|].
    intros (i & Hi & (j & Hj & (b & Hb & Hrest)%bind_Ok)%bind_Ok)%bind_Ok.
    apply randrange_Ok in Hi. apply randrange_Ok in Hj.
    destruct b; [by apply IH|].
    apply bind_Ok in Hrest as (g1 & Hset & Hrest).
    destruct (set_mine_laid h w i j g) as (g2 & Hg2 & Hl2 & _ & Hf); [done..|].
    rewrite Hg2 in Hset. injection Hset as <-. rewrite <- Hf.
    apply IH; [exact Hl2|exact Hrest].
Qed.

Lemma size_list_to_set_le (l : list Cell) :
  (size (list_to_set (C := gset Cell) l) ≤ length l)%nat.
Proof.
  induction l as [|x l IH].
  - rewrite list_to_set_nil, size_empty. simpl. lia.
  - rewrite list_to_set_cons, size_union_alt, size_singleton.
    assert (list_to_set l ∖ {[x]} ⊆ list_to_set (C := gset Cell) l) as Hsub
      by set_solver.
    apply subseteq_size in Hsub. simpl. lia.
Qed.

Lemma length_bind_const {A B} (f : A → list B) (k : nat) (l : list A) :
  (∀ x, length (f x) = k) → length (l ≫= f) = (length l * k)%nat.
Proof.
  intros Hf. induction l as [|x l IH]; [done|].
  rewrite bind_cons, length_app, IH, Hf. done.
Qed.

Lemma length_board_cells h w :
  length (board_cells h w) = (Z.to_nat h * Z.to_nat w)%nat.
Proof.
  unfold board_cells, range.
  rewrite (length_bind_const _ (Z.to_nat w)).
  - rewrite length_seqZ. f_equal. lia.
  - intros i. rewrite (length_bind_const _ 1%nat) by done.
    rewrite length_seqZ. lia.
Qed.

Lemma elem_of_board_cells h w c : c ∈ board_cells h w ↔ on_board h w c.
Proof.
  unfold board_cells, on_board, range. destruct c as [a b]. simpl.
  rewrite list_elem_of_bind. split.
  - intros (i & (j & [= -> ->]%list_elem_of_singleton & Hj)%list_elem_of_bind & Hi).
    apply elem_of_seqZ in Hi, Hj. simpl. lia.
  - intros [Ha Hb]. exists a. rewrite list_elem_of_bind, elem_of_seqZ.
    split; [|lia]. exists b. rewrite elem_of_seqZ, list_elem_of_singleton.
    split; [done|lia].
Qed.

Lemma laid_size h w g :
  laid h w g → 0 ≤ Z.of_nat (size (MinesweeperGame.mines g)) ≤ h * w.
Proof.
  intros (Hh & Hw & (Hh0 & Hw0 & _) & Hon & _). rewrite Hh, Hw in *.
  split; [lia|].
  assert (MinesweeperGame.mines g ⊆ list_to_set (board_cells h w)) as Hsub.
  { intros c Hc. apply elem_of_list_to_set, elem_of_board_cells. auto. }
  apply subseteq_size in Hsub.
  pose proof (size_list_to_set_le (board_cells h w)) as Hle.
  rewrite length_board_cells in Hle. nia.
Qed.

Lemma place_mines_forever h w n draws g :
  0 < h → 0 < w → n < 0 ∨ h * w < n → laid h w g →
  MinesweeperGame.place_mines h w n draws g = OutOfFuel.
Proof.
  intros Hh Hw Hn. revert g.
  induction draws as [|[di dj] draws IH]; intros g Hl; simpl;
    pose proof (laid_size _ _ _ Hl); rewrite decide_False by lia; [done|].
  destruct (randrange_total h di Hh) as (i & -> & Hi).
  destruct (randrange_total w dj Hw) as (j & -> & Hj). simpl.
  pose proof Hl as (_ & _ & _ & _ & Hag). rewrite (Hag (i, j)) by done. simpl.
  case_bool_decide; [by apply IH|].
  destruct (set_mine_laid h w i j g) as (g2 & -> & Hl2 & _); [done..|].
  simpl. by apply IH.
Qed.

Lemma place_mines_elements h w (l : list Cell) g :
  NoDup l → (∀ c, c ∈ l → on_board h w c ∧ c ∉ MinesweeperGame.mines g) →
  laid h w g →
  ∃ g', MinesweeperGame.place_mines h w
          (Z.of_nat (size (MinesweeperGame.mines g) + length l)) l g = Ok g' ∧
        MinesweeperGame.mines g' = list_to_set l ∪ MinesweeperGame.mines g.
Proof.
  revert g. induction l as [|[i j] l IH]; intros g Hnd Hl Hg; simpl.
  - rewrite decide_True by lia. eexists. split; [done|set_solver].
  - rewrite decide_False by lia.
    apply NoDup_cons in Hnd as [Hnin Hnd].
    destruct (Hl (i, j)) as [[Hi Hj] Hnm]; [set_solver|]. simpl in Hi, Hj.
    rewrite !randrange_in_range by done. simpl.
    pose proof Hg as (_ & _ & _ & _ & Hag). rewrite (Hag (i, j)) by done. simpl.
    rewrite bool_decide_eq_false_2 by done.
    destruct (set_mine_laid h w i j g) as (g2 & -> & Hl2 & Hm2 & _); [done..|].
    simpl. destruct (IH g2) as (g' & Hg' & Hm'); [done| |done|].
    { intros c Hc. destruct (Hl c) as [? ?]; [set_solver|].
      split; [done|]. rewrite Hm2. set_solver. }
    exists g'. split; [|rewrite Hm', Hm2; set_solver].
    rewrite <- Hg'. f_equal. rewrite Hm2, size_union, size_singleton by set_solver.
    lia.
Qed.

Lemma init_laid h w n draws g :
  0 ≤ h → 0 ≤ w → MinesweeperGame.init h w n draws = Ok g →
  laid h w g ∧ Z.of_nat (size (MinesweeperGame.mines g)) = n ∧
  MinesweeperGame.mines_found g = ∅.
Proof.
  intros Hh Hw. unfold MinesweeperGame.init. cbv zeta.
  intros (g1 & Hplace & [= <-])%bind_Ok.
  apply place_mines_laid in Hplace as (Hl & Hn & _); [|by apply laid_empty].
  done.
Qed.

(** X13. What [Minesweeper(height, width, mines)] leaves when it returns:
    a board of [height] rows of [width] cells, exactly [mines] mines, all
    of them on the board, the set [self.mines] and the board agreeing on
    every cell, and no mine found yet, so that the game counts as won at
    once only when it has no mine. *)
Theorem init_lays_the_mines (h w n : Z) (draws : list (Z * Z))
    (g : MinesweeperGame.t) :
  0 ≤ h → 0 ≤ w →
  MinesweeperGame.init h w n draws = Ok g →
  Minesweeper.height (MinesweeperGame.grid g) = h ∧
  Minesweeper.width (MinesweeperGame.grid g) = w ∧
  Minesweeper.wf (MinesweeperGame.grid g) ∧
  Z.of_nat (size (MinesweeperGame.mines g)) = n ∧
  (∀ c, c ∈ MinesweeperGame.mines g → on_board h w c) ∧
  (∀ c, on_board h w c →
        (c ∈ MinesweeperGame.mines g ↔ mined (MinesweeperGame.grid g) c)) ∧
  MinesweeperGame.mines_found g = ∅ ∧
  (MinesweeperGame.won g = true ↔ n = 0).
Proof.
  intros Hh Hw Hinit.
  apply init_laid in Hinit as ((H1 & H2 & H3 & H4 & H5) & Hn & Hf); [|done..].
  split_and!; try done.
  - intros c Hc. unfold mined. rewrite (H5 c Hc).
    split; [by intros ?; rewrite bool_decide_eq_true_2|].
    intros [= ?%bool_decide_eq_true]. done.
  - unfold MinesweeperGame.won. rewrite Hf, bool_decide_eq_true.
    split.
    + intros E. rewrite <- E, size_empty in Hn. lia.
    + intros ->. symmetry. apply leibniz_equiv, size_empty_inv. lia.
Qed.

(** Three draws for two mines on a 2x2 board; the second draw hits the
    first mine again. *)
Lemma init_lays_the_mines_witness :
  ∃ g, MinesweeperGame.init 2 2 2 [(0, 1); (2, 5); (3, 2)] = Ok g ∧
       Z.of_nat (size (MinesweeperGame.mines g)) = 2.
Proof.
  eexists. split; [vm_compute; reflexivity|].
  refine (proj1 (proj2 (proj2 (proj2
    (init_lays_the_mines 2 2 2 [(0, 1); (2, 5); (3, 2)] _ _ _ _))))).
  - lia.
  - lia.
  - vm_compute; reflexivity.
Defined.

(** X14. Every layout can come out of [Minesweeper(height, width, mines)]:
    for each set of board cells there are draws of the random generator on
    which the constructor returns with exactly that set of mines. *)
Theorem init_reaches_every_layout (h w : Z) (M : gset Cell) :
  0 ≤ h → 0 ≤ w → (∀ c, c ∈ M → on_board h w c) →
  ∃ draws g,
    MinesweeperGame.init h w (Z.of_nat (size M)) draws = Ok g ∧
    MinesweeperGame.mines g = M.
Proof.
  intros Hh Hw HM.
  destruct (place_mines_elements h w (elements M)
              (MinesweeperGame.mk
                 (Minesweeper.mk h w (MinesweeperGame.empty_board h w)) ∅ ∅))
    as (g & Hg & Hm).
  - apply NoDup_elements.
  - intros c Hc%elem_of_elements. split; [auto|set_solver].
  - by apply laid_empty.
  - exists (elements M), (MinesweeperGame.mk (MinesweeperGame.grid g)
                            (MinesweeperGame.mines g) ∅).
    unfold MinesweeperGame.init. cbv zeta.
    cbn [MinesweeperGame.mines] in Hg, Hm.
    rewrite size_empty, Nat.add_0_l in Hg.
    split; [apply bind_Ok; exists g; split; [exact Hg|done]|].
    simpl. rewrite Hm.
    apply set_eq. intros c. rewrite elem_of_union, elem_of_list_to_set,
      elem_of_elements. set_solver.
Qed.

(** The two mines of a diagonal on the 2x2 board. *)
Lemma init_reaches_every_layout_witness :
  ∃ draws g,
    MinesweeperGame.init 2 2 (Z.of_nat (size ({[(0, 0); (1, 1)]} : gset Cell)))
      draws = Ok g ∧
    MinesweeperGame.mines g = {[(0, 0); (1, 1)]}.
Proof.
  apply (init_reaches_every_layout 2 2 {[(0, 0); (1, 1)]}); [lia|lia|].
  intros c [ ->%elem_of_singleton | ->%elem_of_singleton ]%elem_of_union;
    compute_done.
Defined.

(** X15. A number of mines the board cannot hold, or a negative one, keeps
    the constructor in its [while] loop for ever: no sequence of draws makes
    it return or raise. On a board without cells the first draw raises
    [ValueError] instead, unless no mine was asked for. *)
Theorem init_impossible_counts (h w n : Z) :
  (0 < h → 0 < w → n < 0 ∨ h * w < n →
   ∀ draws, MinesweeperGame.init h w n draws = OutOfFuel) ∧
  (h ≤ 0 ∨ w ≤ 0 → n ≠ 0 →
   ∀ d draws, MinesweeperGame.init h w n (d :: draws) = ValueError).
Proof.
  split.
  - intros Hh Hw Hn draws. unfold MinesweeperGame.init. cbv zeta.
    rewrite place_mines_forever; [done..|]. apply laid_empty; lia.
  - intros Hhw Hn [di dj] draws. unfold MinesweeperGame.init. cbv zeta.
    cbn [MinesweeperGame.place_mines MinesweeperGame.mines].
    rewrite size_empty, decide_False by lia.
    unfold MinesweeperGame.randrange.
    destruct (decide (0 < h)); [|done]. simpl.
    rewrite decide_False by lia. done.
Qed.

(** Five mines on a 2x2 board; a mine on a board without rows. *)
Lemma init_impossible_counts_witness :
  MinesweeperGame.init 2 2 5 [(0, 0); (0, 1); (1, 0); (1, 1); (0, 0)] = OutOfFuel ∧
  MinesweeperGame.init 0 3 1 [(0, 0)] = ValueError.
Proof.
  split.
  - apply (proj1 (init_impossible_counts 2 2 5)); lia.
  - apply (proj2 (init_impossible_counts 0 3 1)); lia.
Defined.

Lemma laid_mines_among (h w : Z) (g : MinesweeperGame.t) (N : gset Cell) :
  laid h w g → (∀ c, c ∈ N → on_board h w c) →
  mines_among (MinesweeperGame.grid g) N
  = Z.of_nat (size (N ∩ MinesweeperGame.mines g)).
Proof.
  intros (_ & _ & _ & _ & Hag) HN. unfold mines_among. do 2 f_equal.
  apply set_eq. intros c. rewrite elem_of_filter, elem_of_intersection.
  split.
  - intros [Hm Hc]. split; [done|]. unfold mined in Hm.
    rewrite (Hag c (HN c Hc)) in Hm. injection Hm as Hm.
    by apply bool_decide_eq_true in Hm.
  - intros [Hc Hm]. split; [|done]. unfold mined.
    rewrite (Hag c (HN c Hc)). by rewrite bool_decide_eq_true_2.
Qed.

(** X16. The two queries of a game answer from the set of mines it was
    built with: [nearby_mines] returns the number of members of
    [self.mines] among the neighbours of the cell, for every cell, on or
    off the board, and [is_mine] tells for every cell of the board whether
    it is a member. *)
Theorem game_answers_from_its_mines (h w n : Z) (draws : list (Z * Z))
    (g : MinesweeperGame.t) (cell : Cell) :
  0 ≤ h → 0 ≤ w →
  MinesweeperGame.init h w n draws = Ok g →
  Minesweeper.nearby_mines (MinesweeperGame.grid g) cell
  = Ok (Z.of_nat (size (neighbours h w cell ∩ MinesweeperGame.mines g))) ∧
  (on_board h w cell →
   Minesweeper.is_mine (MinesweeperGame.grid g) cell
   = Ok (bool_decide (cell ∈ MinesweeperGame.mines g))).
Proof.
  intros Hh Hw Hinit. apply init_laid in Hinit as [Hl _]; [|done..].
  pose proof Hl as (H1 & H2 & Hwf & _ & Hag). split; [|by apply Hag].
  rewrite nearby_mines_among by done. rewrite H1, H2. f_equal.
  apply (laid_mines_among h w); [done|].
  intros c Hc. apply elem_of_neighbours in Hc. tauto.
Qed.

(** The 2x2 board with mines at (0,1) and (1,0), asked about (0,0). *)
Lemma game_answers_from_its_mines_witness :
  ∃ g, MinesweeperGame.init 2 2 2 [(0, 1); (1, 0)] = Ok g ∧
       Minesweeper.nearby_mines (MinesweeperGame.grid g) (0, 0)
       = Ok (Z.of_nat (size (neighbours 2 2 (0, 0) ∩ MinesweeperGame.mines g))).
Proof.
  eexists. split; [vm_compute; reflexivity|].
  refine (proj1 (game_answers_from_its_mines 2 2 2 [(0, 1); (1, 0)] _ (0, 0)
                   _ _ _)).
  - lia.
  - lia.
  - vm_compute; reflexivity.
Defined.

(** ** What a single sentence concludes *)

(** X17. The four methods of [Sentence] reason correctly: of a sentence
    that says the truth about a board, [known_mines] returns mines only and
    [known_safes] mine-free cells only, and the sentence still says the
    truth after [mark_mine] of a mine and after [mark_safe] of a mine-free
    cell. *)
Theorem sentence_methods_sound (g : Minesweeper.t) (s : Sentence.t) (c : Cell) :
  truthful g s →
  (c ∈ Sentence.known_mines s → mined g c) ∧
  (c ∈ Sentence.known_safes s → ¬ mined g c) ∧
  (mined g c → truthful g (Sentence.mark_mine c s)) ∧
  (¬ mined g c → truthful g (Sentence.mark_safe c s)).
Proof.
  intros Hs. split_and!.
  - by apply truthful_known_mines.
  - by apply truthful_known_safes.
  - intros. by apply truthful_mark_mine.
  - intros. by apply truthful_mark_safe.
Qed.

(** The sentence "one mine among (0,0) and (0,1)" on the corner board. *)
Lemma sentence_methods_sound_witness :
  truthful corner_board
    (Sentence.mark_mine (0, 0) (Sentence.mk {[(0, 0); (0, 1)]} 1)).
Proof.
  refine (proj1 (proj2 (proj2
    (sentence_methods_sound corner_board (Sentence.mk {[(0, 0); (0, 1)]} 1)
       (0, 0) _))) _).
  - vm_compute; reflexivity.
  - vm_compute; reflexivity.
Defined.

(** ** How [add_knowledge] can end *)

Lemma py_index_value {A} (l : list A) (i : Z) : py_index l i ≠ ValueError.
Proof. unfold py_index. by repeat case_match. Qed.

Lemma inner_loop_value fuel st i j i_max j_max :
  inner_loop fuel st i j i_max j_max ≠ ValueError.
Proof.
  revert st i j i_max j_max.
  induction fuel as [|fuel IH]; intros st i j i_max j_max; simpl.
  - by case_decide.
  - case_decide as Hlt; [|done].
    case_decide as Heq; [apply IH|].
    pose proof (py_index_value (knowledge st) i) as Hi.
    destruct (py_index (knowledge st) i) as [ki| | |]; simpl; try done.
    pose proof (py_index_value (knowledge st) j) as Hj.
    destruct (py_index (knowledge st) j) as [kj| | |] eqn:Ekj; simpl; try done.
    destruct (Sentence.eq _ _); [|apply IH].
    destruct (remove_elem_of kj st) as [st1 ->]; [by eapply py_index_Ok|].
    simpl. apply IH.
Qed.

Lemma outer_loop_value fuel st i j i_max :
  outer_loop fuel st i j i_max ≠ ValueError.
Proof.
  revert st i j i_max.
  induction fuel as [|fuel IH]; intros st i j i_max; simpl.
  - by case_decide.
  - case_decide as Hlt; [|done].
    pose proof (inner_loop_value
                  (Z.to_nat (Z.of_nat (length (knowledge st)) - j))
                  st i j i_max (Z.of_nat (length (knowledge st)))) as Hin.
    destruct (inner_loop _ _ _ _ _ _) as [c| | |]; simpl; [apply IH|done..].
Qed.

(** X18. [add_knowledge] ends for every state, cell and count, and only in
    two ways: it returns, or it raises [IndexError]. It returns whenever
    both coordinates of the cell are at least -1, so for every cell of the
    board. *)
Theorem add_knowledge_returns (cell : Cell) (count : Z) (st : t) :
  (-1 ≤ cell.1 → -1 ≤ cell.2 → ∃ st', add_knowledge cell count st = Ok st') ∧
  add_knowledge cell count st ≠ ValueError ∧
  add_knowledge cell count st ≠ OutOfFuel.
Proof.
  split_and!.
  - intros H1 H2. unfold add_knowledge. cbv zeta.
    match goal with
    | |- context [saturation ?s] => destruct (saturation_total s) as [st1 ->]
    end.
    simpl. unfold expansion. cbv zeta.
    destruct (outer_loop_total
                (Z.to_nat (Z.of_nat (length (knowledge st1)) - (cell.1 + 1)))
                st1 (cell.1 + 1) (cell.2 + 1)
                (Z.of_nat (length (knowledge st1)))) as [st2 ->];
      unfold size_kb; try lia.
    simpl. apply saturation_total.
  - unfold add_knowledge. cbv zeta.
    match goal with
    | |- context [saturation ?s] => destruct (saturation_total s) as [st1 ->]
    end.
    simpl. unfold expansion. cbv zeta.
    pose proof (outer_loop_value
                  (Z.to_nat (Z.of_nat (length (knowledge st1)) - (cell.1 + 1)))
                  st1 (cell.1 + 1) (cell.2 + 1)
                  (Z.of_nat (length (knowledge st1)))) as Hout.
    destruct (outer_loop _ _ _ _ _) as [st2| | |]; simpl; try done.
    by destruct (saturation_total st2) as [st3 ->].
  - apply add_knowledge_fuel.
Qed.

(** A cell just outside the top-left corner of an 8x8 board. *)
Lemma add_knowledge_returns_witness :
  ∃ st', add_knowledge (-1, -1) 0 (init 8 8) = Ok st'.
Proof.
  apply (proj1 (add_knowledge_returns (-1, -1) 0 (init 8 8))); simpl; lia.
Defined.

Lemma update_without_knowledge st :
  knowledge st = [] → update_mines_and_safes_in_KB st = (false, st).
Proof.
  intros Hk. unfold update_mines_and_safes_in_KB.
  assert (Hfold : ∀ l, foldl sweep_cell (false, st) l = (false, st)).
  { induction l as [|c l IH]; [done|].
    cbn [foldl]. unfold sweep_cell at 2. simpl. by rewrite Hk. }
  rewrite Hfold. simpl. apply Hfold.
Qed.

Lemma saturate_S fuel st :
  saturate (S fuel) st =
  '(removed, st) ← remove_empties_and_safes_and_Mines st;
  if removed : bool then saturate fuel st
  else
    let '(modified, st) := update_mines_and_safes_in_KB st in
    if modified : bool then saturate fuel st else Ok st.
Proof. done. Qed.

Lemma saturate_without_knowledge fuel st :
  knowledge st = [] → saturate (S fuel) st = Ok st.
Proof.
  intros Hk. rewrite saturate_S. unfold remove_empties_and_safes_and_Mines.
  rewrite Hk. cbn [remove_loop mbind result_mbind result_bind].
  by rewrite update_without_knowledge.
Qed.

Lemma remove_only_empty st r :
  knowledge st = [r] → Sentence.cells (deref st r) = ∅ →
  remove_empties_and_safes_and_Mines st = Ok (true, set_knowledge [] st).
Proof.
  intros Hk Hc. unfold remove_empties_and_safes_and_Mines.
  rewrite Hk. cbn [remove_loop]. rewrite Hc, size_empty.
  rewrite decide_True by done. unfold remove. rewrite Hk.
  cbn [list_find]. rewrite decide_True; [done|].
  unfold same. by rewrite bool_decide_eq_true_2.
Qed.

Lemma saturation_empty_sentence cnt st :
  knowledge st = [] →
  saturation (append_new (Sentence.mk ∅ cnt) st)
  = Ok (set_knowledge [] (append_new (Sentence.mk ∅ cnt) st)).
Proof.
  intros Hk. set (st1 := append_new (Sentence.mk ∅ cnt) st).
  assert (Hk1 : knowledge st1 = [length (heap st)]).
  { unfold st1, append_new. simpl. by rewrite Hk. }
  assert (Hc : Sentence.cells (deref st1 (length (heap st))) = ∅).
  { unfold st1, deref, append_new. simpl.
    by rewrite lookup_app_r, Nat.sub_diag by lia. }
  unfold saturation. rewrite saturate_S.
  rewrite (remove_only_empty st1 _ Hk1 Hc).
  cbn [mbind result_mbind result_bind].
  assert (weight st1 = 1%nat) as ->.
  { unfold weight. rewrite Hk1. cbn [sum_list_with]. by rewrite Hc, size_empty. }
  by apply saturate_without_knowledge.
Qed.

Lemma outer_loop_empty fuel st i j :
  knowledge st = [] → i < 0 → j < 0 → i ≠ j →
  outer_loop (S fuel) st i j 0 = IndexError.
Proof.
  intros Hk Hi Hj Hne. cbn [outer_loop]. rewrite decide_True by done.
  rewrite Hk. cbn [length]. cbv zeta.
  destruct (Z.to_nat (Z.of_nat 0 - j)) as [|fuel'] eqn:Ef; [lia|].
  cbn [inner_loop]. rewrite decide_True by lia. rewrite decide_False by done.
  rewrite Hk, (py_index_out [] i) by (simpl; lia). done.
Qed.

(** X19. The bound on the coordinates is sharp: when the knowledge base is
    empty, a cell with two different coordinates below -1 makes
    [add_knowledge] raise [IndexError]. The loop counters of the inference
    step start from the coordinates of the cell and index the empty list. *)
Theorem add_knowledge_far_off_board (cell : Cell) (count : Z) (st : t) :
  knowledge st = [] → cell.1 < -1 → cell.2 < -1 → cell.1 ≠ cell.2 →
  add_knowledge cell count st = IndexError.
Proof.
  intros Hk H1 H2 Hne. unfold add_knowledge, record_move. cbv zeta.
  remember (mark_safe cell (set_moves_made ({[cell]} ∪ moves_made st) st))
    as st0 eqn:Est0.
  assert (Hk0 : knowledge st0 = []) by (by subst st0).
  clear Est0.
  assert (Hscan : (scan st0 cell count).1 = ∅).
  { apply set_eq. intros c. rewrite elem_of_scan, elem_of_neighbours.
    split; [|set_solver]. intros [(_ & [Hc1 _] & Hr & _) _]. lia. }
  destruct (scan st0 cell count) as [nbrs cnt]. simpl in Hscan. subst nbrs.
  rewrite saturation_empty_sentence by done.
  cbn [mbind result_mbind result_bind]. unfold expansion. cbv zeta.
  cbn [knowledge set_knowledge length].
  destruct (Z.to_nat (Z.of_nat 0 - (cell.1 + 1))) as [|fuel] eqn:Ef; [lia|].
  rewrite outer_loop_empty; [done|done|lia..].
Qed.

(** The cell (-3,-4) told to a fresh player. *)
Lemma add_knowledge_far_off_board_witness :
  add_knowledge (-3, -4) 0 (init 8 8) = IndexError.
Proof.
  apply (add_knowledge_far_off_board (-3, -4) 0 (init 8 8)); simpl; try done; lia.
Defined.

(** ** What the inference step adds *)

Lemma difference_of_mono H H' s :
  H ⊆ H' → difference_of H s → difference_of H' s.
Proof. intros Hsub (a & b & ? & ? & ? & ?). exists a, b. auto. Qed.

Lemma valid_deref st r :
  valid_refs st → r ∈ knowledge st → deref st r ∈ heap st.
Proof.
  intros Hv Hr. unfold deref.
  destruct (lookup_lt_is_Some_2 (heap st) r (Hv r Hr)) as [s Hs].
  rewrite Hs. simpl. by eapply list_elem_of_lookup_2.
Qed.

Section expansion.
Context (st : t).

Lemma grown_refl : valid_refs st → grown st st.
Proof.
  intros Hv. split_and!; try done. exists []. rewrite app_nil_r.
  split_and!; [done|done|auto].
Qed.

Lemma grown_delete st1 q :
  grown st st1 → grown st (set_knowledge (delete q (knowledge st1)) st1).
Proof.
  intros (?&?&?&?&?& Hv & new & Hh & Hnew & Hk).
  assert (Hsub : ∀ r, r ∈ delete q (knowledge st1) → r ∈ knowledge st1).
  { intros r Hr. by eapply list_elem_of_delete_inv. }
  unfold grown, valid_refs. simpl. split_and!; try done.
  - intros r Hr. apply Hv. auto.
  - exists new. split_and!; try done. intros r Hr. auto.
Qed.

Lemma grown_derive st1 ki kj :
  grown st st1 → ki ∈ knowledge st1 → kj ∈ knowledge st1 →
  Sentence.cells (deref st1 kj) ⊂ Sentence.cells (deref st1 ki) →
  grown st (append_new
           (Sentence.mk
              (Sentence.cells (deref st1 ki) ∖ Sentence.cells (deref st1 kj))
              (Sentence.count (deref st1 ki) - Sentence.count (deref st1 kj)))
           st1).
Proof.
  intros (?&?&?&?&?& Hv & new & Hh & Hnew & Hk) Hki Hkj Hsub.
  unfold grown, valid_refs, append_new. simpl. split_and!; try done.
  - intros r [Hr | ->%list_elem_of_singleton ]%elem_of_app; rewrite length_app; simpl.
    + specialize (Hv r Hr). lia.
    + lia.
  - eexists (new ++ [_]). split_and!.
    + by rewrite Hh, <- app_assoc.
    + apply Forall_app. split.
      * eapply Forall_impl; [done|]. intros s. apply difference_of_mono.
        intros x Hx. apply elem_of_app. by left.
      * constructor; [|done]. exists (deref st1 ki), (deref st1 kj).
        split_and!; try done; apply elem_of_app; left; by apply valid_deref.
    + intros r [Hr | ->%list_elem_of_singleton ]%elem_of_app; [auto|].
      right. rewrite Hh, length_app. lia.
Qed.
End expansion.

(** X20. The inference step of [add_knowledge] only adds: it leaves
    [mines], [safes] and [moves_made] alone, changes no sentence that
    exists, and every sentence it appends is the difference of two
    sentences of the store, the smaller one a proper subset of the larger.
    So each sentence of the knowledge base afterwards was there before or
    is such a difference. *)
Theorem expansion_only_adds_differences (cell : Cell) (st st' : t) :
  valid_refs st →
  expansion cell st = Ok st' →
  moves_made st' = moves_made st ∧ mines st' = mines st ∧
  safes st' = safes st ∧
  heap st `prefix_of` heap st' ∧
  Forall (λ s, s ∈ live st ∨ difference_of (heap st') s) (live st').
Proof.
  intros Hv Hexp.
  destruct (expansion_inv (grown st) (grown_delete st) (grown_derive st)
              cell st st' (grown_refl st Hv) Hexp)
    as (_ & _ & Hmv & Hm & Hs & Hv' & new & Hh & Hnew & Hk).
  split_and!; try done.
  - rewrite Hh. by apply prefix_app_r.
  - apply Forall_forall. intros s (r & -> & Hr)%list_elem_of_fmap.
    destruct (Hk r Hr) as [Hold|Hge].
    + left. apply list_elem_of_fmap. exists r. split; [|done].
      unfold deref. rewrite Hh.
      by rewrite lookup_app_l by (by apply Hv).
    + right. rewrite Forall_forall in Hnew. apply Hnew.
      specialize (Hv' r Hr).
      destruct (lookup_lt_is_Some_2 (heap st') r Hv') as [s Hs'].
      unfold deref. rewrite Hs'. simpl.
      rewrite Hh, lookup_app_r in Hs' by done.
      by eapply list_elem_of_lookup_2.
Qed.

(** Two sentences, the second a proper subset of the first; the step
    starts at index 0 for the cell (-1,-1). *)
Lemma expansion_only_adds_differences_witness :
  ∃ st',
    expansion (-1, -1)
      (mk 2 2 ∅ ∅ ∅ [0%nat; 1%nat]
          [Sentence.mk {[(0, 0); (0, 1); (1, 1)]} 2; Sentence.mk {[(0, 0)]} 1])
    = Ok st' ∧ mines st' = ∅.
Proof.
  eexists. split; [vm_compute; reflexivity|].
  refine (proj1 (proj2 (expansion_only_adds_differences (-1, -1)
    (mk 2 2 ∅ ∅ ∅ [0%nat; 1%nat]
        [Sentence.mk {[(0, 0); (0, 1); (1, 1)]} 2; Sentence.mk {[(0, 0)]} 1])
    _ _ _))).
  - intros r Hr. simpl.
    apply elem_of_cons in Hr as [->|Hr]; [lia|].
    apply list_elem_of_singleton in Hr as ->. lia.
  - vm_compute; reflexivity.
Defined.
